(** * UserManagementDash: the client-side data pipeline of [script.js]

    A shallow embedding of the record normalizer, the view pipeline
    (filter, sort, paginate) and the mutation coordinator (create, update,
    delete) of [script.js], with the properties of the specification stated
    and proved over it.

    Conventions of the embedding.
    - A JavaScript string is a list of code units; the development covers the
      code units below 256 (Latin-1), for which [toLowerCase], [trim] and the
      regular-expression class [\s] are given exactly.
    - A JavaScript number that holds a count, a page or an identifier is an
      integer of [Z].  The page size is exact for [perPage >= 1], the values
      of the page-size selector.
    - The global [state] object and the DOM are threaded explicitly: a
      handler is a function from the application state to the application
      state, and the remote service is a function from requests to replies
      that the handler consults where the source awaits [fetch].  A handler
      runs to its end before the next event is handled. *)

From Stdlib Require Import Ascii String.
From Stdlib Require Import List ZArith Lia Bool Permutation Sorted.
From Stdlib Require Import Relations RelationClasses.
Import ListNotations.

Local Open Scope Z_scope.

(** ** JavaScript strings

    A string is the list of its code units.  The strings of the pipeline
    below hold code units under 256 (Latin-1), one [ascii] each; strings with
    code units above are treated further down, as lists of numbers. *)

Definition str := list ascii.

Definition lit (s : string) : str := list_ascii_of_string s.

Definition isSpaceCode (n : N) : bool :=
  (((9 <=? n) && (n <=? 13)) || (n =? 32) || (n =? 160))%N.

(** The class [\s] of regular expressions, and the characters [trim] strips. *)
Definition isSpace (c : ascii) : bool := isSpaceCode (N_of_ascii c).

Definition lowerCode (n : N) : N :=
  (if ((65 <=? n) && (n <=? 90)) ||
      ((192 <=? n) && (n <=? 222) && negb (n =? 215))
   then n + 32 else n)%N.

Definition toLowerChar (c : ascii) : ascii := ascii_of_N (lowerCode (N_of_ascii c)).

(** [String.prototype.toLowerCase] on code units under 256, where it maps
    letter by letter. *)
Definition toLowerCase (s : str) : str := map toLowerChar s.

Fixpoint dropSpaces (s : str) : str :=
  match s with
  | [] => []
  | c :: t => if isSpace c then dropSpaces t else s
  end.

(** [String.prototype.trim] *)
Definition trim (s : str) : str := rev (dropSpaces (rev (dropSpaces s))).

(** Truthiness of a string: the empty string is the only falsy one. *)
Definition truthyStr (s : str) : bool :=
  match s with [] => false | _ :: _ => true end.

Fixpoint startsWith (s p : str) {struct p} : bool :=
  match p, s with
  | [], _ => true
  | _ :: _, [] => false
  | a :: p', b :: s' => Ascii.eqb a b && startsWith s' p'
  end.

(** [String.prototype.includes] *)
Fixpoint includes (hay needle : str) : bool :=
  startsWith hay needle ||
  match hay with
  | [] => false
  | _ :: t => includes t needle
  end.

(** [Array.prototype.join] on an array of strings *)
Fixpoint join (sep : str) (parts : list str) : str :=
  match parts with
  | [] => []
  | [p] => p
  | p :: rest => p ++ sep ++ join sep rest
  end.

(** The relational operator [<] on two strings: code units compared from
    the left, a proper prefix being smaller. *)
Fixpoint strLt (a b : str) : bool :=
  match a, b with
  | _, [] => false
  | [], _ :: _ => true
  | x :: a', y :: b' =>
      if (N_of_ascii x <? N_of_ascii y)%N then true
      else if (N_of_ascii y <? N_of_ascii x)%N then false
      else strLt a' b'
  end.

(** [String.prototype.split] with the separator [/\s+/]: the pieces between
    the maximal runs of white space, an empty piece included where the string
    starts or ends with white space.  [piece] is the current piece, reversed;
    [inSep] tells that the scan is inside a run of white space. *)
Fixpoint splitSpacesFrom (inSep : bool) (piece : str) (s : str) : list str :=
  match s with
  | [] => [rev piece]
  | c :: t =>
      if isSpace c then
        if inSep then splitSpacesFrom true [] t
        else rev piece :: splitSpacesFrom true [] t
      else splitSpacesFrom false (c :: piece) t
  end.

Definition splitSpaces (s : str) : list str := splitSpacesFrom false [] s.

(** ** JavaScript arrays and numbers *)

Definition relIndex (len i : Z) : Z :=
  if i <? 0 then Z.max (len + i) 0 else Z.min i len.

(** [Array.prototype.slice (from, to)] *)
Definition slice {A : Type} (l : list A) (from to : Z) : list A :=
  let len := Z.of_nat (length l) in
  let k := relIndex len from in
  let final := relIndex len to in
  firstn (Z.to_nat (final - k)) (skipn (Z.to_nat k) l).

(** [Math.ceil (a / b)] on integers, [b] positive. *)
Definition ceilDiv (a b : Z) : Z := - ((- a) / b).

Section ArraySort.
Context {A : Type}.
Variable cmp : A -> A -> Z.

(** [x] is placed in front of the first element it does not follow. *)
Fixpoint insertBy (x : A) (l : list A) : list A :=
  match l with
  | [] => [x]
  | y :: t => if cmp x y <=? 0 then x :: y :: t else y :: insertBy x t
  end.

(** [Array.prototype.sort (cmp)].  ECMAScript requires the sort to be
    stable, which for a consistent comparator fixes the result; it is
    computed here by insertion from the right. *)
Fixpoint sortBy (l : list A) : list A :=
  match l with
  | [] => []
  | x :: t => insertBy x (sortBy t)
  end.
End ArraySort.

(** [Math.max (0, ...xs)] *)
Definition maxWithZero (xs : list Z) : Z := fold_right Z.max 0 xs.

(** ** Records and state *)

Module User.
Record t : Type := mk {
  id : Z;
  first : str;
  last : str;
  email : str;
  department : str
}.
End User.

Module Filters.
Record t : Type := mk {
  first : str;
  last : str;
  email : str;
  department : str
}.
End Filters.

(** The keys of the sortable column headers: the fields of a record. *)
Inductive Field : Type := FId | FFirst | FLast | FEmail | FDepartment.

Record State : Type := mkState {
  users : list User.t;
  filtered : list User.t;
  page : Z;
  perPage : Z;
  totalPages : Z;
  sortKey : option Field;
  sortDir : Z;
  filters : Filters.t;
  search : str
}.

Definition initialState : State :=
  mkState [] [] 1 10 1 None 1 (Filters.mk [] [] [] []) [].

(** ** Record normalizer *)

Module Raw.
(** A record of the remote service, [{id, name, email, company: {name}}];
    [None] stands for a field that is missing. *)
Record t : Type := mk {
  id : Z;
  name : option str;
  email : option str;
  company : option (option str)
}.
End Raw.

Definition orEmpty (o : option str) : str :=
  match o with Some s => s | None => [] end.

Definition splitName (full : option str) : str * str :=
  match full with
  | None => ([], [])
  | Some full =>
      if truthyStr full then
        let parts := splitSpaces (trim full) in
        (hd [] parts, join (lit " ") (tl parts))
      else ([], [])
  end.

Definition makeUserFromAPI (u : Raw.t) : User.t :=
  let (first, last) := splitName (Raw.name u) in
  User.mk (Raw.id u) first last
          (orEmpty (Raw.email u))
          (match Raw.company u with
           | Some (Some n) => n
           | _ => []
           end).

(** ** View pipeline *)

(** The callback of [state.users.filter] in [applyAllFilters]; [s] is the
    trimmed, lower-cased search term. *)
Definition keepUser (f : Filters.t) (s : str) (u : User.t) : bool :=
  if truthyStr (Filters.first f) &&
     negb (includes (toLowerCase (User.first u)) (toLowerCase (Filters.first f)))
  then false
  else if truthyStr (Filters.last f) &&
     negb (includes (toLowerCase (User.last u)) (toLowerCase (Filters.last f)))
  then false
  else if truthyStr (Filters.email f) &&
     negb (includes (toLowerCase (User.email u)) (toLowerCase (Filters.email f)))
  then false
  else if truthyStr (Filters.department f) &&
     negb (includes (toLowerCase (User.department u))
                    (toLowerCase (Filters.department f)))
  then false
  else if truthyStr s then
    let combined :=
      toLowerCase (join (lit " ")
        [User.first u; User.last u; User.email u; User.department u]) in
    if negb (includes combined s) then false else true
  else true.

Definition filterStep (st : State) : list User.t :=
  let s := toLowerCase (trim (search st)) in
  filter (keepUser (filters st) s) (users st).

(** [a[key]] for the string-valued keys. *)
Definition textOf (key : Field) (u : User.t) : str :=
  match key with
  | FId => []
  | FFirst => User.first u
  | FLast => User.last u
  | FEmail => User.email u
  | FDepartment => User.department u
  end.

(** The comparator handed to [sort]. *)
Definition compareUsers (key : Field) (dir : Z) (a b : User.t) : Z :=
  match key with
  | FId =>
      let va := User.id a in
      let vb := User.id b in
      if va <? vb then -1 * dir
      else if vb <? va then 1 * dir
      else 0
  | _ =>
      let va := toLowerCase (textOf key a) in
      let vb := toLowerCase (textOf key b) in
      if strLt va vb then -1 * dir
      else if strLt vb va then 1 * dir
      else 0
  end.

Definition sortStep (st : State) (l : list User.t) : list User.t :=
  match sortKey st with
  | Some key => sortBy (compareUsers key (sortDir st)) l
  | None => l
  end.

Inductive Row : Type :=
| NoUsersFound
| UserRow (u : User.t).

(** What [renderTable] writes to the page. *)
Record View : Type := mkView {
  rows : list Row;
  rowsInfo : Z * Z * Z;
  pageInfo : Z * Z;
  prevDisabled : bool;
  nextDisabled : bool
}.

Definition pageItemsOf (st : State) : list User.t :=
  let start := (page st - 1) * perPage st in
  slice (filtered st) start (start + perPage st).

Definition renderTable (st : State) : View :=
  let start := (page st - 1) * perPage st in
  let pageItems := pageItemsOf st in
  let len := Z.of_nat (length (filtered st)) in
  mkView
    (match pageItems with
     | [] => [NoUsersFound]
     | _ :: _ => map UserRow pageItems
     end)
    (Z.min len (start + 1),
     Z.min len (start + Z.of_nat (length pageItems)),
     len)
    (page st, totalPages st)
    (page st <=? 1)
    (totalPages st <=? page st).

Definition recompute (st : State) : State :=
  let sorted := sortStep st (filterStep st) in
  let total := Z.max 1 (ceilDiv (Z.of_nat (length sorted)) (perPage st)) in
  mkState (users st) sorted
          (if total <? page st then 1 else page st)
          (perPage st) total
          (sortKey st) (sortDir st) (filters st) (search st).

(** [applyAllFilters]: the new state and what it renders. *)
Definition applyAllFilters (st : State) : State * View :=
  let st' := recompute st in (st', renderTable st').

(** ** Regular expressions

    The pattern of [validateEmail] is kept as syntax and run by derivatives;
    [test] on a pattern anchored by [^] and [$] asks for a match of the
    whole string. *)

Inductive regex : Type :=
| Void
| Eps
| Class (p : ascii -> bool)
| Cat (r s : regex)
| Alt (r s : regex)
| Star (r : regex).

(** [r+] *)
Definition Plus (r : regex) : regex := Cat r (Star r).

Fixpoint nullable (r : regex) : bool :=
  match r with
  | Void => false
  | Eps => true
  | Class _ => false
  | Cat r s => nullable r && nullable s
  | Alt r s => nullable r || nullable s
  | Star _ => true
  end.

Fixpoint deriv (c : ascii) (r : regex) : regex :=
  match r with
  | Void => Void
  | Eps => Void
  | Class p => if p c then Eps else Void
  | Cat r s =>
      if nullable r then Alt (Cat (deriv c r) s) (deriv c s)
      else Cat (deriv c r) s
  | Alt r s => Alt (deriv c r) (deriv c s)
  | Star r => Cat (deriv c r) (Star r)
  end.

Fixpoint test (r : regex) (s : str) : bool :=
  match s with
  | [] => nullable r
  | c :: t => test (deriv c r) t
  end.

(** The class [[^\s@]] *)
Definition notSpaceNorAt (c : ascii) : bool :=
  negb (isSpace c || Ascii.eqb c "@").

(** [/^[^\s@]+@[^\s@]+\.[^\s@]+$/] *)
Definition emailPattern : regex :=
  Cat (Plus (Class notSpaceNorAt))
   (Cat (Class (Ascii.eqb "@"))
    (Cat (Plus (Class notSpaceNorAt))
     (Cat (Class (Ascii.eqb "."))
          (Plus (Class notSpaceNorAt))))).

Definition validateEmail (email : str) : bool := test emailPattern email.

(** ** Remote user service *)

Inductive Method : Type := GET | POST | PUT | DELETE.

(** The request bodies; of the update payload the fields computed from the
    form are kept, the fixed placeholder fields are left out. *)
Inductive Payload : Type :=
| NoPayload
| DraftPayload (first last email department : str)
| FullPayload (id : Z) (name email username company : str).

Record Request : Type := mkRequest {
  method : Method;
  target : option Z;
  payload : Payload
}.

(** What [res.json()] yields.  [NotJson]: nothing usable, because the body
    does not parse or parses to [null], so that [res.json()], or reading
    [ret.id], or calling [data.map], throws.  [JsonObject]: a value that is no
    array, with the [id] it carries or none (a number, a string or a boolean
    carries none).  [JsonArray]: an array of raw records. *)
Inductive Body : Type :=
| NotJson
| JsonObject (id : option Z)
| JsonArray (data : list Raw.t).

(** [fetch] rejects on a network error, and resolves with a response
    otherwise, whatever its status. *)
Inductive Reply : Type :=
| NetworkError
| Response (status : Z) (body : Body).

Definition Remote : Type := Request -> Reply.

(** [res.ok]: the status is in the range 200-299. *)
Definition ok (status : Z) : bool := (200 <=? status) && (status <=? 299).

(** ** Mutation coordinator *)

Inductive Failure : Type :=
| FetchRejected
| BodyUnreadable
| LoadNotOk
| UpdateNotOk (status : Z)
| CreateNotOk (status : Z)
| DeleteNotOk.

Inductive FormMessage : Type :=
| RequiredFields
| InvalidEmail
| ApiError (cause : Failure).

Inductive Banner : Type :=
| LoadError (cause : Failure)
| DeleteError (cause : Failure).

(** The values of the four inputs of the edit form. *)
Record Form : Type := mkForm {
  firstName : str;
  lastName : str;
  emailInput : str;
  departmentInput : str
}.

(** The application: the [state] object, [editingId], what the page shows,
    and the requests sent so far, latest first. *)
Record App : Type := mkApp {
  state : State;
  editingId : option Z;
  view : View;
  formError : option FormMessage;
  errorBanner : option Banner;
  editModalOpen : bool;
  sent : list Request
}.

Definition withState (a : App) (sv : State * View) : App :=
  mkApp (fst sv) (editingId a) (snd sv) (formError a) (errorBanner a)
        (editModalOpen a) (sent a).

Definition withUsers (st : State) (us : list User.t) : State :=
  mkState us (filtered st) (page st) (perPage st) (totalPages st)
          (sortKey st) (sortDir st) (filters st) (search st).

Definition showError (msg : Banner) (a : App) : App :=
  mkApp (state a) (editingId a) (view a) (formError a) (Some msg)
        (editModalOpen a) (sent a).

Definition showFormError (msg : FormMessage) (a : App) : App :=
  mkApp (state a) (editingId a) (view a) (Some msg) (errorBanner a)
        (editModalOpen a) (sent a).

Definition hideFormError (a : App) : App :=
  mkApp (state a) (editingId a) (view a) None (errorBanner a)
        (editModalOpen a) (sent a).

Definition closeEditModal (a : App) : App :=
  mkApp (state a) None (view a) (formError a) (errorBanner a) false (sent a).

Definition openEditModal (id : option Z) (a : App) : App :=
  mkApp (state a) id (view a) None (errorBanner a) true (sent a).

(** The request leaves: it is recorded, and the remote service answers. *)
Definition send (remote : Remote) (rq : Request) (a : App) : App * Reply :=
  (mkApp (state a) (editingId a) (view a) (formError a) (errorBanner a)
         (editModalOpen a) (rq :: sent a),
   remote rq).

(** The four requests of the application. *)
Definition loadRequest : Request := mkRequest GET None NoPayload.

Definition createRequest (first last email dept : str) : Request :=
  mkRequest POST None (DraftPayload first last email dept).

Definition orDefault (s dflt : str) : str := if truthyStr s then s else dflt.

Definition updateRequest (eid : Z) (first last email dept : str) : Request :=
  mkRequest PUT (Some eid)
    (FullPayload eid (trim (first ++ lit " " ++ last)) email
                 (orDefault (toLowerCase first) (lit "user"))
                 (orDefault dept (lit "N/A"))).

Definition deleteRequest (id : Z) : Request :=
  mkRequest DELETE (Some id) NoPayload.

(** [ret.id] of a parsed body. *)
Definition bodyId (b : Body) : option Z :=
  match b with
  | JsonObject i => i
  | _ => None
  end.

Definition loadUsers (remote : Remote) (a : App) : App :=
  let (a1, reply) := send remote loadRequest a in
  match reply with
  | NetworkError => showError (LoadError FetchRejected) a1
  | Response status body =>
      if negb (ok status) then showError (LoadError LoadNotOk) a1
      else match body with
           | JsonArray data =>
               withState a1
                 (applyAllFilters
                    (withUsers (state a1) (map makeUserFromAPI data)))
           | _ => showError (LoadError BodyUnreadable) a1
           end
  end.

(** Truthiness of [editingId]: [null] and [0] are falsy. *)
Definition editingTarget (e : option Z) : option Z :=
  match e with
  | Some n => if n =? 0 then None else Some n
  | None => None
  end.

(** 2^53: up to it every integer is a double. *)
Definition two53 : Z := 9007199254740992.

(** [x + 1] in double precision, for a double [x] that holds an integer not
    below 0: exact below 2^53; from 2^53 to 2^54 the doubles are the even
    integers and the sum, half way between two of them, goes to the one whose
    significand is even; from 2^54 on the sum goes back to [x]. *)
Definition plusOne (x : Z) : Z :=
  if x <? two53 then x + 1
  else if x <? 2 * two53 then (if Z.even (x / 2) then x else x + 2)
  else x.

(** [ret.id || Math.max (0, ...state.users.map (u => u.id)) + 1] *)
Definition newIdFor (retId : option Z) (us : list User.t) : Z :=
  match retId with
  | Some n => if n =? 0 then plusOne (maxWithZero (map User.id us)) else n
  | None => plusOne (maxWithZero (map User.id us))
  end.

(** The callback of [state.users.map] in the update branch. *)
Definition replaceById (eid : Z) (localUser u : User.t) : User.t :=
  if User.id u =? eid then localUser else u.

(** ** Handlers that await the remote service

    A handler that calls [fetch] runs in two parts: up to the [await], where
    the request leaves, and from the reply on.  Between the two any other
    event may be handled, so the second part meets the state and the
    [editingId] of its own time; what it keeps from the first part are the
    local constants of the handler.  The load and the create await a second
    time, for the body of the reply; they read and write the state after
    that only, so the reply is the status together with the body, and the
    second part runs once. *)

(** What a suspended handler keeps: nothing for the load, [localUser] for an
    update, the fields of [localUser] for a create (its [id] is [null]), the
    [id] for a delete. *)
Inductive Pending : Type :=
| AwaitLoad
| AwaitUpdate (localUser : User.t)
| AwaitCreate (first last email dept : str)
| AwaitDelete (id : Z).

(** The request leaves and is recorded. *)
Definition post (rq : Request) (a : App) : App :=
  mkApp (state a) (editingId a) (view a) (formError a) (errorBanner a)
        (editModalOpen a) (rq :: sent a).

(** [Number (editingId)]: [null] gives 0. *)
Definition numberOf (e : option Z) : Z :=
  match e with
  | Some n => n
  | None => 0
  end.

(** The submit handler of the edit form up to [await fetch]: the checks, and
    for a draft that passes the request sent and what the handler keeps. *)
Definition submitStart (f : Form) (a0 : App)
  : App * option (Request * Pending) :=
  let a := hideFormError a0 in
  let first := trim (firstName f) in
  let last := trim (lastName f) in
  let email := trim (emailInput f) in
  let dept := trim (departmentInput f) in
  if negb (truthyStr first) || negb (truthyStr email) then
    (showFormError RequiredFields a, None)
  else if negb (validateEmail email) then
    (showFormError InvalidEmail a, None)
  else
    match editingTarget (editingId a) with
    | Some eid =>
        let localUser := User.mk eid first last email dept in
        let rq := updateRequest eid first last email dept in
        (post rq a, Some (rq, AwaitUpdate localUser))
    | None =>
        let rq := createRequest first last email dept in
        (post rq a, Some (rq, AwaitCreate first last email dept))
    end.

(** A handler from the reply on, in the application [a] of that time.  The
    update replaces the records whose identifier is [Number (editingId)] as
    [editingId] is then. *)
Definition resume (p : Pending) (reply : Reply) (a : App) : App :=
  match p with
  | AwaitLoad =>
      match reply with
      | NetworkError => showError (LoadError FetchRejected) a
      | Response status body =>
          if negb (ok status) then showError (LoadError LoadNotOk) a
          else match body with
               | JsonArray data =>
                   withState a
                     (applyAllFilters
                        (withUsers (state a) (map makeUserFromAPI data)))
               | _ => showError (LoadError BodyUnreadable) a
               end
      end
  | AwaitUpdate localUser =>
      match reply with
      | NetworkError => showFormError (ApiError FetchRejected) a
      | Response status _ =>
          if negb (ok status) then
            showFormError (ApiError (UpdateNotOk status)) a
          else
            let us :=
              map (replaceById (numberOf (editingId a)) localUser)
                  (users (state a)) in
            closeEditModal
              (withState a (applyAllFilters (withUsers (state a) us)))
      end
  | AwaitCreate first last email dept =>
      match reply with
      | NetworkError => showFormError (ApiError FetchRejected) a
      | Response status body =>
          if negb (ok status) then
            showFormError (ApiError (CreateNotOk status)) a
          else
            match body with
            | NotJson => showFormError (ApiError BodyUnreadable) a
            | JsonObject _ | JsonArray _ =>
                let newId := newIdFor (bodyId body) (users (state a)) in
                let us :=
                  User.mk newId first last email dept :: users (state a) in
                closeEditModal
                  (withState a (applyAllFilters (withUsers (state a) us)))
            end
      end
  | AwaitDelete id =>
      match reply with
      | NetworkError => showError (DeleteError FetchRejected) a
      | Response status _ =>
          if negb (ok status) && negb (status =? 200) && negb (status =? 204)
          then showError (DeleteError DeleteNotOk) a
          else
            let us :=
              filter (fun u => negb (User.id u =? id)) (users (state a)) in
            withState a (applyAllFilters (withUsers (state a) us))
      end
  end.

(** The submit handler of the edit form when the reply arrives before any
    other event. *)
Definition submitForm (remote : Remote) (f : Form) (a0 : App) : App :=
  match submitStart f a0 with
  | (a1, Some (rq, p)) => resume p (remote rq) a1
  | (a1, None) => a1
  end.

(** The click handler of the table body, for a delete button; [confirmed]
    is the answer to the confirmation prompt. *)
Definition deleteUser (remote : Remote) (confirmed : bool) (id : Z) (a : App)
  : App :=
  if negb confirmed then a
  else
    let (a1, reply) := send remote (deleteRequest id) a in
    match reply with
    | NetworkError => showError (DeleteError FetchRejected) a1
    | Response status _ =>
        if negb (ok status) && negb (status =? 200) && negb (status =? 204)
        then showError (DeleteError DeleteNotOk) a1
        else
          let us :=
            filter (fun u => negb (User.id u =? id)) (users (state a1)) in
          withState a1 (applyAllFilters (withUsers (state a1) us))
    end.

(** ** The remaining handlers *)

Definition withRender (a : App) (st : State) : App :=
  withState a (st, renderTable st).

(** Click on a sortable column header. *)
Definition clickHeader (key : Field) (a : App) : App :=
  let st := state a in
  let same :=
    match sortKey st, key with
    | Some FId, FId | Some FFirst, FFirst | Some FLast, FLast
    | Some FEmail, FEmail | Some FDepartment, FDepartment => true
    | _, _ => false
    end in
  let st1 :=
    if same then
      mkState (users st) (filtered st) (page st) (perPage st) (totalPages st)
              (sortKey st) (- sortDir st) (filters st) (search st)
    else
      mkState (users st) (filtered st) (page st) (perPage st) (totalPages st)
              (Some key) 1 (filters st) (search st) in
  withState a (applyAllFilters st1).

Definition withPage (st : State) (p : Z) : State :=
  mkState (users st) (filtered st) p (perPage st) (totalPages st)
          (sortKey st) (sortDir st) (filters st) (search st).

Definition clickPrev (a : App) : App :=
  let st := state a in
  withRender a (withPage st (Z.max 1 (page st - 1))).

Definition clickNext (a : App) : App :=
  let st := state a in
  withRender a (withPage st (Z.min (totalPages st) (page st + 1))).

Definition changePerPage (n : Z) (a : App) : App :=
  let st := state a in
  withState a
    (applyAllFilters
       (mkState (users st) (filtered st) 1 n (totalPages st)
                (sortKey st) (sortDir st) (filters st) (search st))).

(** The search box, once the 300 ms timer fires. *)
Definition applySearch (term : str) (a : App) : App :=
  let st := state a in
  withState a
    (applyAllFilters
       (mkState (users st) (filtered st) 1 (perPage st) (totalPages st)
                (sortKey st) (sortDir st) (filters st) term)).

Definition clickApplyFilters (f : Filters.t) (a : App) : App :=
  let st := state a in
  let f' :=
    Filters.mk (trim (Filters.first f)) (trim (Filters.last f))
               (trim (Filters.email f)) (trim (Filters.department f)) in
  withState a
    (applyAllFilters
       (mkState (users st) (filtered st) 1 (perPage st) (totalPages st)
                (sortKey st) (sortDir st) f' (search st))).

Definition clickClearFilters (a : App) : App :=
  let st := state a in
  withState a
    (applyAllFilters
       (mkState (users st) (filtered st) 1 (perPage st) (totalPages st)
                (sortKey st) (sortDir st) (Filters.mk [] [] [] []) [])).

Inductive Event : Type :=
| Load
| Submit (f : Form)
| ClickEdit (id : Z)
| ClickAdd
| CancelEdit
| ClickDelete (confirmed : bool) (id : Z)
| ClickHeader (key : Field)
| ClickPrev
| ClickNext
| ChangePerPage (n : Z)
| SearchInput (term : str)
| ApplyFilters (f : Filters.t)
| ClearFilters.

Definition handle (remote : Remote) (ev : Event) (a : App) : App :=
  match ev with
  | Load => loadUsers remote a
  | Submit f => submitForm remote f a
  | ClickEdit id => openEditModal (Some id) a
  | ClickAdd => openEditModal None a
  | CancelEdit => closeEditModal a
  | ClickDelete confirmed id => deleteUser remote confirmed id a
  | ClickHeader key => clickHeader key a
  | ClickPrev => clickPrev a
  | ClickNext => clickNext a
  | ChangePerPage n => changePerPage n a
  | SearchInput term => applySearch term a
  | ApplyFilters f => clickApplyFilters f a
  | ClearFilters => clickClearFilters a
  end.

(** A session in which every reply arrives before the next event: the
    events handled one after the other, each with the answers the remote
    service gives at that time. *)
Definition run (steps : list (Remote * Event)) (a : App) : App :=
  fold_left (fun acc step => handle (fst step) (snd step) acc) steps a.

(** The application as the script leaves it before [init]; [page0] is what
    the document shows then. *)
Definition initialApp (page0 : View) : App :=
  mkApp initialState None page0 None None false [].

(** The identifiers held by the local collection, in collection order. *)
Definition ids (a : App) : list Z := map User.id (users (state a)).

(** ** Sessions in which replies arrive late

    The application together with the handlers that await a reply.  An event
    fires the part of its handler that runs at once; a reply settles one of
    the awaiting handlers, in any order and after any number of other
    events. *)

(** The part of the handler of an event that runs at once. *)
Definition fire (ev : Event) (a : App) : App * option (Request * Pending) :=
  match ev with
  | Load => (post loadRequest a, Some (loadRequest, AwaitLoad))
  | Submit f => submitStart f a
  | ClickEdit id => (openEditModal (Some id) a, None)
  | ClickAdd => (openEditModal None a, None)
  | CancelEdit => (closeEditModal a, None)
  | ClickDelete confirmed id =>
      if negb confirmed then (a, None)
      else (post (deleteRequest id) a, Some (deleteRequest id, AwaitDelete id))
  | ClickHeader key => (clickHeader key a, None)
  | ClickPrev => (clickPrev a, None)
  | ClickNext => (clickNext a, None)
  | ChangePerPage n => (changePerPage n a, None)
  | SearchInput term => (applySearch term a, None)
  | ApplyFilters f => (clickApplyFilters f a, None)
  | ClearFilters => (clickClearFilters a, None)
  end.

Record System : Type := mkSystem {
  appOf : App;
  awaiting : list (Request * Pending)
}.

Inductive Step : Type :=
| Fire (ev : Event)
| Settle (i : nat) (reply : Reply).

Fixpoint dropNth {A : Type} (i : nat) (l : list A) : list A :=
  match i, l with
  | _, [] => []
  | O, _ :: t => t
  | S j, x :: t => x :: dropNth j t
  end.

Definition step (s : Step) (y : System) : System :=
  match s with
  | Fire ev =>
      let (a', o) := fire ev (appOf y) in
      mkSystem a' (awaiting y ++ match o with Some rp => [rp] | None => [] end)
  | Settle i reply =>
      match nth_error (awaiting y) i with
      | Some (_, p) =>
          mkSystem (resume p reply (appOf y)) (dropNth i (awaiting y))
      | None => y
      end
  end.

Definition play (steps : list Step) (y : System) : System :=
  fold_left (fun acc s => step s acc) steps y.


(** ** Strings of code units above Latin-1

    The strings of the development hold code units below 256, where
    [String.prototype.toLowerCase] maps letter by letter.  Above, it does
    not: the Greek capital sigma becomes the final small sigma at the end of a
    word.  What follows is [toLowerCase], [includes] and the test of one
    filter of [applyAllFilters] on strings of code units as numbers, exact for
    the code units below 256 and the Greek letters alpha to omega, capital and
    small; on the code units below 256 they are the functions above. *)

Definition units := list N.

Definition widen (s : str) : units := map N_of_ascii s.

(** The cased letters: of Latin-1, and the Greek letters alpha to omega. *)
Definition isCased (n : N) : bool :=
  (((65 <=? n) && (n <=? 90)) || ((97 <=? n) && (n <=? 122)) ||
   (n =? 170) || (n =? 181) || (n =? 186) ||
   ((192 <=? n) && (n <=? 214)) || ((216 <=? n) && (n <=? 246)) ||
   ((248 <=? n) && (n <=? 255)) ||
   ((913 <=? n) && (n <=? 937) && negb (n =? 930)) ||
   ((945 <=? n) && (n <=? 969)))%N.

(** The characters of Latin-1 that casing ignores: apostrophe, full stop,
    colon, circumflex, grave, diaeresis, soft hyphen, macron, acute, middle
    dot, cedilla. *)
Definition isCaseIgnorable (n : N) : bool :=
  ((n =? 39) || (n =? 46) || (n =? 58) || (n =? 94) || (n =? 96) ||
   (n =? 168) || (n =? 173) || (n =? 175) || (n =? 180) || (n =? 183) ||
   (n =? 184))%N.

(** A cased letter comes next, ignorable characters skipped. *)
Fixpoint casedNext (s : units) : bool :=
  match s with
  | [] => false
  | c :: t => if isCaseIgnorable c then casedNext t else isCased c
  end.

Definition lowerUnit (n : N) : N :=
  (if n <? 256 then lowerCode n
   else if (913 <=? n) && (n <=? 937) && negb (n =? 930) then n + 32
   else n)%N.

(** [before] holds the code units already passed, the nearest first.  A
    capital sigma (931) after a cased letter and not before one is final
    (962). *)
Fixpoint lowerUnitsFrom (before : units) (s : units) : units :=
  match s with
  | [] => []
  | c :: t =>
      (if (c =? 931)%N then
         if casedNext before && negb (casedNext t) then 962%N else 963%N
       else lowerUnit c)
      :: lowerUnitsFrom (c :: before) t
  end.

(** [String.prototype.toLowerCase] on code units. *)
Definition toLowerCaseUnits (s : units) : units := lowerUnitsFrom [] s.

Fixpoint startsWithUnits (s p : units) {struct p} : bool :=
  match p, s with
  | [], _ => true
  | _ :: _, [] => false
  | a :: p', b :: s' => (a =? b)%N && startsWithUnits s' p'
  end.

(** [String.prototype.includes] on code units. *)
Fixpoint includesUnits (hay needle : units) : bool :=
  startsWithUnits hay needle ||
  match hay with
  | [] => false
  | _ :: t => includesUnits t needle
  end.

(** One filter of the callback of [applyAllFilters]: the record is dropped
    when the filter is not empty and the lower-cased value does not include
    the lower-cased filter. *)
Definition dropsByFilter (flt value : units) : bool :=
  match flt with
  | [] => false
  | _ :: _ =>
      negb (includesUnits (toLowerCaseUnits value) (toLowerCaseUnits flt))
  end.

(** ** Escaping, and the values the edit form opens with *)

(** The replacement table of [escapeHtml]. *)
Definition escapeChar (c : ascii) : str :=
  if Ascii.eqb c "&" then lit "&amp;"
  else if Ascii.eqb c "<" then lit "&lt;"
  else if Ascii.eqb c ">" then lit "&gt;"
  else if Ascii.eqb c "034" then lit "&quot;"
  else if Ascii.eqb c "'" then lit "&#39;"
  else [c].

(** [escapeHtml] on a string: the ampersand, the angle brackets and the two
    quote characters are replaced by their entities. *)
Definition escapeHtml (s : str) : str := flat_map escapeChar s.

(** The cells of a table row, after the identifier: the four escaped
    fields. *)
Definition rowCells (u : User.t) : list str :=
  [escapeHtml (User.first u); escapeHtml (User.last u);
   escapeHtml (User.email u); escapeHtml (User.department u)].

(** [state.users.find (x => x.id === Number (id))] *)
Definition findUser (id : Z) (us : list User.t) : option User.t :=
  find (fun x => User.id x =? id) us.

(** What [openEditModal] writes into the four inputs for a truthy [id]:
    the fields of the record found, or empty strings. *)
Definition prefillForm (id : Z) (us : list User.t) : Form :=
  match findUser id us with
  | Some u =>
      mkForm (User.first u) (User.last u) (User.email u) (User.department u)
  | None => mkForm [] [] [] []
  end.

(** * Vocabulary of the specification *)

(** ** Substrings and letter case *)

Definition Substring (needle hay : str) : Prop :=
  exists pre suf, hay = pre ++ needle ++ suf.

Definition SameLetter (x y : ascii) : Prop := toLowerChar x = toLowerChar y.

Definition EqIgnoreCase (a b : str) : Prop := Forall2 SameLetter a b.

(** [hay] contains [needle], letter case ignored. *)
Definition ContainsIgnoreCase (hay needle : str) : Prop :=
  exists w, Substring w hay /\ EqIgnoreCase w needle.

(** A filter string: empty, it admits every value. *)
Definition FilterAdmits (flt value : str) : Prop :=
  flt = [] \/ ContainsIgnoreCase value flt.

(** The four display fields joined by single spaces. *)
Definition displayText (u : User.t) : str :=
  User.first u ++ lit " " ++ User.last u ++ lit " " ++
  User.email u ++ lit " " ++ User.department u.

Definition SearchAdmits (term : str) (u : User.t) : Prop :=
  trim term = [] \/ ContainsIgnoreCase (displayText u) (trim term).

Definition Satisfies (f : Filters.t) (term : str) (u : User.t) : Prop :=
  FilterAdmits (Filters.first f) (User.first u) /\
  FilterAdmits (Filters.last f) (User.last u) /\
  FilterAdmits (Filters.email f) (User.email u) /\
  FilterAdmits (Filters.department f) (User.department u) /\
  SearchAdmits term u.

(** ** Page count *)

(** [c] is the ceiling of [n / p]. *)
Definition IsCeiling (n p c : Z) : Prop := (c - 1) * p < n <= c * p.

(** ** Collation *)

(** Lexicographic order on code units. *)
Inductive LexLt : str -> str -> Prop :=
| LexLt_nil : forall y b, LexLt [] (y :: b)
| LexLt_head : forall x y a b,
    (N_of_ascii x < N_of_ascii y)%N -> LexLt (x :: a) (y :: b)
| LexLt_tail : forall x a b, LexLt a b -> LexLt (x :: a) (x :: b).

(** The collation of a sort key: numeric for the identifier, lexicographic
    on the lower-cased text for the other fields. *)
Definition KeyLt (key : Field) (a b : User.t) : Prop :=
  match key with
  | FId => User.id a < User.id b
  | _ => LexLt (toLowerCase (textOf key a)) (toLowerCase (textOf key b))
  end.

Definition sameKey (key : Field) (a b : User.t) : bool :=
  match key with
  | FId => User.id a =? User.id b
  | _ =>
      if list_eq_dec ascii_dec (toLowerCase (textOf key a))
                               (toLowerCase (textOf key b))
      then true else false
  end.

(** The test [va < vb] of the comparator, on the sort values of two records. *)
Definition keyLtb (key : Field) (a b : User.t) : bool :=
  match key with
  | FId => User.id a <? User.id b
  | _ => strLt (toLowerCase (textOf key a)) (toLowerCase (textOf key b))
  end.

(** [a] may stand before [b]: ascending for direction 1, descending for -1. *)
Definition InOrder (key : Field) (dir : Z) (a b : User.t) : Prop :=
  if 0 <? dir then ~ KeyLt key b a else ~ KeyLt key a b.

(** [out] is a stable sort of [l]: a rearrangement of [l], in order, in
    which the records of every class of equal keys keep the order of [l]. *)
Definition StableSortOf (key : Field) (dir : Z) (l out : list User.t) : Prop :=
  Permutation l out /\
  StronglySorted (InOrder key dir) out /\
  forall r, filter (sameKey key r) out = filter (sameKey key r) l.

(** ** Tokens of a name *)

Definition AllSpaces (s : str) : Prop := Forall (fun c => isSpace c = true) s.
Definition NoSpaces (s : str) : Prop := Forall (fun c => isSpace c = false) s.

(** [ts] are the maximal runs of characters other than white space of [s],
    from left to right. *)
Inductive Tokens : str -> list str -> Prop :=
| Tokens_blank : forall s, AllSpaces s -> Tokens s []
| Tokens_word : forall ws w rest ts,
    AllSpaces ws -> w <> [] -> NoSpaces w ->
    isSpace (hd " "%char rest) = true ->
    Tokens rest ts ->
    Tokens (ws ++ w ++ rest) (w :: ts).

(** The tokens of [s] read from the left; [cur] is the token being read,
    reversed. *)
Fixpoint tokensFrom (cur : str) (s : str) : list str :=
  match s with
  | [] => match cur with [] => [] | _ :: _ => [rev cur] end
  | c :: t =>
      if isSpace c then
        match cur with
        | [] => tokensFrom [] t
        | _ :: _ => rev cur :: tokensFrom [] t
        end
      else tokensFrom (c :: cur) t
  end.

Definition tokens (s : str) : list str := tokensFrom [] s.

(** The last character of [t], if any, is not white space. *)
Fixpoint endsClean (t : str) : bool :=
  match t with
  | [] => true
  | [c] => negb (isSpace c)
  | _ :: t' => endsClean t'
  end.

(** The nested company name of a raw record, the empty string when the
    company or its name is missing. *)
Definition companyName (u : Raw.t) : str :=
  match Raw.company u with
  | Some (Some n) => n
  | _ => []
  end.

(** ** Shape of an email address *)

(** Denotation of a regular expression. *)
Inductive Matches : regex -> str -> Prop :=
| M_Eps : Matches Eps []
| M_Class : forall (p : ascii -> bool) c, p c = true -> Matches (Class p) [c]
| M_Cat : forall r s u v, Matches r u -> Matches s v -> Matches (Cat r s) (u ++ v)
| M_AltL : forall r s u, Matches r u -> Matches (Alt r s) u
| M_AltR : forall r s u, Matches s u -> Matches (Alt r s) u
| M_Star_nil : forall r, Matches (Star r) []
| M_Star_app : forall r u v,
    Matches r u -> Matches (Star r) v -> Matches (Star r) (u ++ v).

(** A run of one or more characters that are neither white space nor [@]. *)
Definition Plain (s : str) : Prop :=
  s <> [] /\ Forall (fun c => isSpace c = false /\ c <> "@"%char) s.

(** local-part [@] domain, the domain holding a dot with text on both sides. *)
Definition EmailShape (e : str) : Prop :=
  exists loc dom tld,
    e = loc ++ "@"%char :: dom ++ "."%char :: tld /\
    Plain loc /\ Plain dom /\ Plain tld.

(** ** Submissions and replies *)

(** The draft read from the form: the four inputs, trimmed. *)
Definition draftFirst (f : Form) : str := trim (firstName f).
Definition draftLast (f : Form) : str := trim (lastName f).
Definition draftEmail (f : Form) : str := trim (emailInput f).
Definition draftDept (f : Form) : str := trim (departmentInput f).

Definition ValidDraft (f : Form) : Prop :=
  draftFirst f <> [] /\ EmailShape (draftEmail f).

(** An HTTP status of the 2xx range. *)
Definition Is2xx (status : Z) : Prop := 200 <= status <= 299.

(** ** Identifiers *)

(** [m] is the largest of 0 and the numbers of [xs]. *)
Definition IsMaxWithZero (xs : list Z) (m : Z) : Prop :=
  (m = 0 \/ In m xs) /\ 0 <= m /\ Forall (fun x => x <= m) xs.




(** ** Scenarios *)

Definition blankView : View := mkView [] (0, 0, 0) (1, 1) true true.

Definition sampleData : list Raw.t :=
  [ Raw.mk 1 (Some (lit "Leanne Graham")) (Some (lit "Sincere@april.biz"))
           (Some (Some (lit "Romaguera-Crona")));
    Raw.mk 2 (Some (lit "Ervin Howell")) (Some (lit "Shanna@melissa.tv"))
           (Some (Some (lit "Deckow-Crist"))) ].

Definition sampleForm : Form :=
  mkForm (lit "Jane") (lit "Doe") (lit "jane@widget.co") (lit "Widget").

(** A service that answers every creation with the identifier 11, as the
    placeholder service of the script does. *)
Definition placeholderRemote : Remote :=
  fun rq =>
    match method rq with
    | GET => Response 200 (JsonArray sampleData)
    | POST => Response 201 (JsonObject (Some 11))
    | PUT => Response 200 (JsonObject (target rq))
    | DELETE => Response 200 (JsonObject None)
    end.

(** A service that answers everything with one reply. *)
Definition answering (r : Reply) : Remote := fun _ => r.

Definition user7 : User.t :=
  User.mk 7 (lit "Kurtis") (lit "Weissnat") (lit "Telly.Hoeger@billy.biz")
          (lit "Johns Group").

Definition user5 : User.t :=
  User.mk 5 (lit "Chelsey") (lit "Dietrich") (lit "Lucio_Hettinger@annie.ca")
          (lit "Keebler LLC").

Definition user3 : User.t :=
  User.mk 3 (lit "Clementine") (lit "Bauch") (lit "Nathan@yesenia.net")
          (lit "Romaguera-Jacobson").

Definition appWith (us : list User.t) (editing : option Z) : App :=
  mkApp (withUsers initialState us) editing blankView None None false [].

(** Twelve records, numbered 1 to 12. *)
Definition twelveUsers : list User.t :=
  map (fun i => User.mk (Z.of_nat i) (lit "User") [] (lit "u@example.org") [])
      (seq 1 12).

Definition jane : User.t :=
  User.mk 21 (lit "Jane") (lit "Doe") (lit "JANE@widget.co") (lit "Widget Works").

Definition janet : User.t :=
  User.mk 22 (lit "Janet") (lit "Roe") (lit "janet@gadget.co") (lit "Gadget Ltd").

Definition john : User.t :=
  User.mk 23 (lit "John") (lit "Poe") (lit "john@widget.co") (lit "widget works").

(** ** Reachable states *)

(** What every state of a session satisfies: the page lies between 1 and
    the page count, and the sort direction is 1 or -1. *)
Definition WellFormed (st : State) : Prop :=
  1 <= page st <= totalPages st /\ (sortDir st = 1 \/ sortDir st = -1).




(** ** Pages and derived state *)

(** The items of page [k] of a state. *)
Definition pageAt (st : State) (k : Z) : list User.t :=
  pageItemsOf (withPage st k).

(** The pages 1 to [totalPages], in order. *)
Definition allPages (st : State) : list (list User.t) :=
  map (fun i => pageAt st (Z.of_nat i)) (seq 1 (Z.to_nat (totalPages st))).

(** The derived fields are those of the pipeline for the current inputs. *)
Definition Derived (st : State) : Prop :=
  filtered st = sortStep st (filterStep st) /\
  totalPages st =
    Z.max 1 (ceilDiv (Z.of_nat (length (filtered st))) (perPage st)).

(** The page shows the state. *)
Definition InSync (a : App) : Prop := view a = renderTable (state a).

Definition withSearch (st : State) (term : str) : State :=
  mkState (users st) (filtered st) (page st) (perPage st) (totalPages st)
          (sortKey st) (sortDir st) (filters st) term.

(** The characters that open or close markup or an attribute value. *)
Definition isMarkup (c : ascii) : bool :=
  Ascii.eqb c "<" || Ascii.eqb c ">" || Ascii.eqb c "034" || Ascii.eqb c "'".

(** The events whose handlers contact the remote service. *)
Definition contactsRemote (ev : Event) : bool :=
  match ev with
  | Load | Submit _ | ClickDelete true _ => true
  | _ => false
  end.

(** ** Requests and replies of a submission *)

(** The request a valid submission sends: an update of the record being
    edited, or a creation. *)
Definition submitRequest (f : Form) (a : App) : Request :=
  match editingTarget (editingId a) with
  | Some eid =>
      updateRequest eid (draftFirst f) (draftLast f) (draftEmail f)
                    (draftDept f)
  | None =>
      createRequest (draftFirst f) (draftLast f) (draftEmail f) (draftDept f)
  end.

(** A reply that confirms nothing: [fetch] rejected, or a status outside the
    2xx range. *)
Definition Refused (r : Reply) : Prop :=
  match r with
  | NetworkError => True
  | Response status _ => ~ Is2xx status
  end.


(** A token: one or more characters, none of them white space. *)
Definition Word (w : str) : Prop := w <> [] /\ NoSpaces w.

(** ** Filters as the code applies them *)

(** The lower-cased value contains the lower-cased filter, or the filter is
    empty. *)
Definition FilterAdmitsLowered (flt value : str) : Prop :=
  flt = [] \/ Substring (toLowerCase flt) (toLowerCase value).

Definition SearchAdmitsLowered (term : str) (u : User.t) : Prop :=
  trim term = [] \/
  Substring (toLowerCase (trim term)) (toLowerCase (displayText u)).

Definition SatisfiesLowered (f : Filters.t) (term : str) (u : User.t) : Prop :=
  FilterAdmitsLowered (Filters.first f) (User.first u) /\
  FilterAdmitsLowered (Filters.last f) (User.last u) /\
  FilterAdmitsLowered (Filters.email f) (User.email u) /\
  FilterAdmitsLowered (Filters.department f) (User.department u) /\
  SearchAdmitsLowered term u.

(** The Greek name Thanasis in capitals, and its first five letters. *)
Definition thanasis : units := [920; 913; 925; 913; 931; 919; 931]%N.
Definition thanas : units := [920; 913; 925; 913; 931]%N.

(** * Properties *)

(** ** Strings *)

Lemma truthyStr_false (s : str) : truthyStr s = false <-> s = [].
Proof. destruct s; simpl; split; congruence. Qed.

Lemma truthyStr_lower (s : str) : truthyStr (toLowerCase s) = truthyStr s.
Proof. destruct s; reflexivity. Qed.

Lemma startsWith_spec (s p : str) :
  startsWith s p = true <-> exists suf, s = p ++ suf.
Proof.
  revert s; induction p as [|a p IH]; intros s; simpl.
  - split; [intros _; now exists s | reflexivity].
  - destruct s as [|b s].
    + split; [discriminate | intros [suf H]; discriminate].
    + rewrite andb_true_iff, Ascii.eqb_eq, IH. split.
      * intros [-> [suf ->]]. now exists suf.
      * intros [suf H]. injection H as -> ->. split; [reflexivity | now exists suf].
Qed.

Lemma includes_spec (hay needle : str) :
  includes hay needle = true <-> Substring needle hay.
Proof.
  unfold Substring. induction hay as [|c hay IH].
  - simpl. rewrite orb_false_r, startsWith_spec. split.
    + intros [suf H]. now exists [], suf.
    + intros [pre [suf H]]. destruct pre; [now exists suf | discriminate].
  - cbn [includes]. rewrite orb_true_iff, startsWith_spec, IH. split.
    + intros [[suf H] | [pre [suf H]]].
      * now exists [], suf.
      * exists (c :: pre), suf. simpl. now rewrite H.
    + intros [pre [suf H]]. destruct pre as [|d pre]; simpl in H.
      * left. now exists suf.
      * right. injection H as _ H. now exists pre, suf.
Qed.

Lemma lower_eq_iff (a b : str) :
  toLowerCase a = toLowerCase b <-> EqIgnoreCase a b.
Proof.
  unfold EqIgnoreCase, toLowerCase. revert b.
  induction a as [|x a IH]; intros [|y b]; simpl; split; intros H;
    try discriminate; try constructor; try solve [inversion H].
  - injection H as H _. exact H.
  - injection H as _ H. now apply IH.
  - inversion H; subst. f_equal; [assumption | now apply IH].
Qed.

(** Lower-casing both sides and looking for a substring is containment with
    letter case ignored. *)
Lemma includes_lower (hay needle : str) :
  includes (toLowerCase hay) (toLowerCase needle) = true <->
  ContainsIgnoreCase hay needle.
Proof.
  rewrite includes_spec. unfold ContainsIgnoreCase, Substring. split.
  - intros [pre [suf H]]. unfold toLowerCase in H.
    apply map_eq_app in H. destruct H as [p1 [rest [-> [_ H]]]].
    apply map_eq_app in H. destruct H as [w [s1 [-> [Hw _]]]].
    exists w. split; [now exists p1, s1 | now apply lower_eq_iff].
  - intros [w [[pre [suf ->]] Hw]]. apply lower_eq_iff in Hw.
    exists (toLowerCase pre), (toLowerCase suf).
    unfold toLowerCase in *. now rewrite !map_app, Hw.
Qed.

Lemma filter_clause (flt value : str) :
  truthyStr flt && negb (includes (toLowerCase value) (toLowerCase flt)) = false
  <-> FilterAdmits flt value.
Proof.
  unfold FilterAdmits. rewrite andb_false_iff, negb_false_iff.
  now rewrite truthyStr_false, includes_lower.
Qed.

Lemma join_display (u : User.t) :
  join (lit " ") [User.first u; User.last u; User.email u; User.department u]
  = displayText u.
Proof. reflexivity. Qed.

Lemma keepUser_spec (f : Filters.t) (term : str) (u : User.t) :
  keepUser f (toLowerCase (trim term)) u = true <-> Satisfies f term u.
Proof.
  unfold keepUser, Satisfies, SearchAdmits.
  rewrite <- !filter_clause, join_display, truthyStr_lower.
  rewrite <- (truthyStr_false (trim term)), <- includes_lower.
  destruct (truthyStr (Filters.first f) && _); [intuition discriminate|].
  destruct (truthyStr (Filters.last f) && _); [intuition discriminate|].
  destruct (truthyStr (Filters.email f) && _); [intuition discriminate|].
  destruct (truthyStr (Filters.department f) && _); [intuition discriminate|].
  destruct (truthyStr (trim term)); [|intuition auto].
  destruct (includes _ _); simpl; intuition discriminate.
Qed.

Lemma filter_clause_lowered (flt value : str) :
  truthyStr flt && negb (includes (toLowerCase value) (toLowerCase flt)) = false
  <-> FilterAdmitsLowered flt value.
Proof.
  unfold FilterAdmitsLowered. rewrite andb_false_iff, negb_false_iff.
  now rewrite truthyStr_false, includes_spec.
Qed.

(** The callback of the filter, as the code applies it: on lower-cased
    strings. *)
Lemma keepUser_lowered (f : Filters.t) (term : str) (u : User.t) :
  keepUser f (toLowerCase (trim term)) u = true <-> SatisfiesLowered f term u.
Proof.
  unfold keepUser, SatisfiesLowered, SearchAdmitsLowered.
  rewrite <- !filter_clause_lowered, join_display, truthyStr_lower.
  rewrite <- (truthyStr_false (trim term)), <- includes_spec.
  destruct (truthyStr (Filters.first f) && _); [intuition discriminate|].
  destruct (truthyStr (Filters.last f) && _); [intuition discriminate|].
  destruct (truthyStr (Filters.email f) && _); [intuition discriminate|].
  destruct (truthyStr (Filters.department f) && _); [intuition discriminate|].
  destruct (truthyStr (trim term)); [|intuition auto].
  destruct (includes _ _); simpl; intuition discriminate.
Qed.

(** ** Code units: the functions on Latin-1 are those on code units *)

Lemma lowerUnit_ascii (c : ascii) :
  N_of_ascii (toLowerChar c) = lowerUnit (N_of_ascii c).
Proof. destruct c as [[] [] [] [] [] [] [] []]; reflexivity. Qed.

Lemma not_sigma_ascii (c : ascii) : (N_of_ascii c =? 931)%N = false.
Proof. destruct c as [[] [] [] [] [] [] [] []]; reflexivity. Qed.

Lemma lowerUnitsFrom_widen (before : units) (s : str) :
  lowerUnitsFrom before (widen s) = widen (toLowerCase s).
Proof.
  revert before. induction s as [|c s IH]; intros before; [reflexivity|].
  cbn [widen map toLowerCase lowerUnitsFrom].
  rewrite not_sigma_ascii, lowerUnit_ascii. f_equal. apply IH.
Qed.

Lemma toLowerCaseUnits_widen (s : str) :
  toLowerCaseUnits (widen s) = widen (toLowerCase s).
Proof. apply lowerUnitsFrom_widen. Qed.

Lemma eqb_widen (a b : ascii) :
  (N_of_ascii a =? N_of_ascii b)%N = Ascii.eqb a b.
Proof.
  destruct (Ascii.eqb_spec a b) as [-> | Hne]; [apply N.eqb_refl|].
  apply N.eqb_neq. intros E. apply Hne.
  now rewrite <- (ascii_N_embedding a), <- (ascii_N_embedding b), E.
Qed.

Lemma startsWithUnits_widen (s p : str) :
  startsWithUnits (widen s) (widen p) = startsWith s p.
Proof.
  revert s. induction p as [|a p IH]; intros [|b s]; try reflexivity.
  cbn [widen map startsWithUnits startsWith]. now rewrite eqb_widen, <- IH.
Qed.

Lemma includesUnits_widen (hay needle : str) :
  includesUnits (widen hay) (widen needle) = includes hay needle.
Proof.
  induction hay as [|c hay IH].
  - cbn [widen map includesUnits includes].
    now rewrite <- startsWithUnits_widen.
  - cbn [widen map includesUnits includes].
    change (map N_of_ascii hay) with (widen hay).
    rewrite IH. f_equal.
    exact (startsWithUnits_widen (c :: hay) needle).
Qed.

(** One filter on Latin-1 strings is the filter on their code units. *)
Lemma dropsByFilter_widen (flt value : str) :
  dropsByFilter (widen flt) (widen value) =
  truthyStr flt && negb (includes (toLowerCase value) (toLowerCase flt)).
Proof.
  destruct flt as [|c flt]; [reflexivity|].
  unfold dropsByFilter. cbn [widen map truthyStr andb].
  change (N_of_ascii c :: map N_of_ascii flt) with (widen (c :: flt)).
  change (map N_of_ascii value) with (widen value).
  now rewrite !toLowerCaseUnits_widen, includesUnits_widen.
Qed.

(** ** Sorting with a comparator *)

Section SortFacts.
Context {A : Type}.
Variable cmp : A -> A -> Z.

Lemma insertBy_perm (x : A) (l : list A) :
  Permutation (x :: l) (insertBy cmp x l).
Proof.
  induction l as [|y t IH]; simpl; [reflexivity|].
  destruct (cmp x y <=? 0); [reflexivity|].
  rewrite perm_swap. now constructor.
Qed.

Lemma sortBy_perm (l : list A) : Permutation l (sortBy cmp l).
Proof.
  induction l as [|x t IH]; simpl; [constructor|].
  rewrite <- insertBy_perm. now constructor.
Qed.

Lemma sortBy_length (l : list A) : length (sortBy cmp l) = length l.
Proof. symmetry. apply Permutation_length, sortBy_perm. Qed.

Section Order.
Variable R : A -> A -> Prop.
Hypothesis R_trans : forall a b c, R a b -> R b c -> R a c.
Hypothesis cmp_le : forall a b, cmp a b <= 0 -> R a b.
Hypothesis cmp_gt : forall a b, 0 < cmp a b -> R b a.

Lemma insertBy_sorted (x : A) (l : list A) :
  StronglySorted R l -> StronglySorted R (insertBy cmp x l).
Proof.
  induction 1 as [|y t Hs IH Hy]; simpl.
  - repeat constructor.
  - destruct (Z.leb_spec (cmp x y) 0) as [Hle | Hgt].
    + constructor; [now constructor|].
      constructor; [now apply cmp_le|].
      eapply Forall_impl; [|exact Hy].
      intros z Hz. apply R_trans with y; [now apply cmp_le | exact Hz].
    + constructor; [exact IH|].
      eapply Permutation_Forall; [apply insertBy_perm|].
      constructor; [now apply cmp_gt | exact Hy].
Qed.

Lemma sortBy_sorted (l : list A) : StronglySorted R (sortBy cmp l).
Proof.
  induction l as [|x t IH]; simpl; [constructor|].
  now apply insertBy_sorted.
Qed.
End Order.

Section Stability.
Variable same : A -> A -> bool.
Hypothesis same_cmp :
  forall r x y, same r x = true -> same r y = true -> cmp x y <= 0.

Lemma insertBy_stable (r x : A) (l : list A) :
  filter (same r) (insertBy cmp x l) = filter (same r) (x :: l).
Proof.
  induction l as [|y t IH]; [reflexivity|].
  cbn [insertBy]. destruct (Z.leb_spec (cmp x y) 0) as [Hle | Hgt];
    [reflexivity|].
  cbn [filter] in *. rewrite IH.
  destruct (same r x) eqn:Hx, (same r y) eqn:Hy; try reflexivity.
  specialize (same_cmp r x y Hx Hy). lia.
Qed.

Lemma sortBy_stable (r : A) (l : list A) :
  filter (same r) (sortBy cmp l) = filter (same r) l.
Proof.
  induction l as [|x t IH]; [reflexivity|].
  cbn [sortBy]. rewrite insertBy_stable. cbn [filter]. now rewrite IH.
Qed.
End Stability.
End SortFacts.

(** A sorted list is fixed by the content of its classes of equal keys:
    two lists in order whose classes agree, each in its order, are equal. *)
Section StableUnique.
Context {A : Type}.
Variable R : A -> A -> Prop.
Variable same : A -> A -> bool.
Hypothesis same_refl : forall x, same x x = true.
Hypothesis same_trans :
  forall x y z, same x y = true -> same y z = true -> same x z = true.
Hypothesis same_sym : forall x y, same x y = true -> same y x = true.
Hypothesis R_antisym : forall x y, R x y -> R y x -> same x y = true.
Hypothesis R_refl : forall x, R x x.

Lemma in_filter_same (x : A) (l : list A) : In x l -> In x (filter (same x) l).
Proof. intros H. apply filter_In. auto. Qed.

Lemma stable_sorted_unique (l1 l2 : list A) :
  StronglySorted R l1 -> StronglySorted R l2 ->
  (forall r, filter (same r) l1 = filter (same r) l2) ->
  l1 = l2.
Proof.
  intros H1. revert l2.
  induction H1 as [|x t1 Hs1 IH Hx]; intros l2 H2 Hf.
  - destruct l2 as [|y t2]; [reflexivity|].
    specialize (Hf y). cbn in Hf. rewrite same_refl in Hf. discriminate.
  - destruct H2 as [|y t2 Hs2 Hy].
    + specialize (Hf x). cbn in Hf. rewrite same_refl in Hf. discriminate.
    + assert (Hxy : same x y = true).
      { apply R_antisym.
        - assert (In y (x :: t1)) as [->|Hin].
          { eapply (proj1 (filter_In (same y) y (x :: t1))).
            rewrite Hf. apply in_filter_same. now left. }
          + apply R_refl.
          + rewrite Forall_forall in Hx. now apply Hx.
        - assert (In x (y :: t2)) as [->|Hin].
          { eapply (proj1 (filter_In (same x) x (y :: t2))).
            rewrite <- Hf. apply in_filter_same. now left. }
          + apply R_refl.
          + rewrite Forall_forall in Hy. now apply Hy. }
      pose proof (Hf x) as Hfx. cbn in Hfx.
      rewrite same_refl, Hxy in Hfx. injection Hfx as <- Hfx.
      f_equal. apply IH; [exact Hs2|].
      intros r. specialize (Hf r). cbn in Hf.
      destruct (same r x) eqn:Hr; [|exact Hf].
      now injection Hf.
Qed.
End StableUnique.

(** ** The order on strings *)

Lemma N_of_ascii_inj (x y : ascii) : N_of_ascii x = N_of_ascii y -> x = y.
Proof.
  intros H. rewrite <- (ascii_N_embedding x), <- (ascii_N_embedding y).
  now rewrite H.
Qed.

Lemma strLt_spec (a b : str) : strLt a b = true <-> LexLt a b.
Proof.
  revert b; induction a as [|x a IH]; intros [|y b]; simpl.
  - split; [discriminate | inversion 1].
  - split; [constructor | reflexivity].
  - split; [discriminate | inversion 1].
  - destruct (N.ltb_spec (N_of_ascii x) (N_of_ascii y)) as [Hlt | Hge].
    + split; [intros _; now constructor | reflexivity].
    + destruct (N.ltb_spec (N_of_ascii y) (N_of_ascii x)) as [Hgt | Hle].
      * split; [discriminate|]. inversion 1; subst; lia.
      * assert (x = y) by (apply N_of_ascii_inj; lia). subst y.
        rewrite IH. split; [now constructor|].
        inversion 1; subst; [lia | assumption].
Qed.

Lemma strLt_irrefl (a : str) : strLt a a = false.
Proof.
  induction a as [|x a IH]; simpl; [reflexivity|].
  now rewrite N.ltb_irrefl.
Qed.

Lemma strLt_trans (a b c : str) :
  strLt a b = true -> strLt b c = true -> strLt a c = true.
Proof.
  revert b c; induction a as [|x a IH]; intros [|y b] [|z c]; simpl;
    try congruence.
  destruct (N.ltb_spec (N_of_ascii x) (N_of_ascii y)),
           (N.ltb_spec (N_of_ascii y) (N_of_ascii x)),
           (N.ltb_spec (N_of_ascii y) (N_of_ascii z)),
           (N.ltb_spec (N_of_ascii z) (N_of_ascii y)),
           (N.ltb_spec (N_of_ascii x) (N_of_ascii z)),
           (N.ltb_spec (N_of_ascii z) (N_of_ascii x));
    try congruence; try lia.
  apply IH.
Qed.

Lemma strLt_total (a b : str) :
  strLt a b = false -> strLt b a = false -> a = b.
Proof.
  revert b; induction a as [|x a IH]; intros [|y b]; simpl;
    try congruence.
  destruct (N.ltb_spec (N_of_ascii x) (N_of_ascii y)),
           (N.ltb_spec (N_of_ascii y) (N_of_ascii x));
    try congruence; try lia.
  intros Ha Hb. assert (x = y) by (apply N_of_ascii_inj; lia).
  subst y. f_equal. now apply IH.
Qed.

(** ** The collation of a sort key *)

Lemma keyLtb_spec (key : Field) (a b : User.t) :
  keyLtb key a b = true <-> KeyLt key a b.
Proof.
  destruct key; simpl; first [apply Z.ltb_lt | apply strLt_spec].
Qed.

Lemma keyLtb_irrefl (key : Field) (a : User.t) : keyLtb key a a = false.
Proof. destruct key; simpl; first [apply Z.ltb_irrefl | apply strLt_irrefl]. Qed.

Lemma keyLtb_trans (key : Field) (a b c : User.t) :
  keyLtb key a b = true -> keyLtb key b c = true -> keyLtb key a c = true.
Proof.
  destruct key; simpl; try apply strLt_trans.
  rewrite !Z.ltb_lt. lia.
Qed.

Lemma keyLtb_asym (key : Field) (a b : User.t) :
  keyLtb key a b = true -> keyLtb key b a = false.
Proof.
  intros H. destruct (keyLtb key b a) eqn:E; [|reflexivity].
  pose proof (keyLtb_trans _ _ _ _ H E) as H'.
  now rewrite keyLtb_irrefl in H'.
Qed.

(** Two records have the same key exactly when neither is below the other. *)
Lemma sameKey_spec (key : Field) (a b : User.t) :
  sameKey key a b = true <->
  keyLtb key a b = false /\ keyLtb key b a = false.
Proof.
  destruct key; simpl;
    try (destruct (list_eq_dec ascii_dec _ _) as [E | E];
         [rewrite E, strLt_irrefl; tauto
         | split; [discriminate | intros [H1 H2]; exfalso; apply E;
                                   now apply strLt_total]]).
  rewrite Z.eqb_eq, !Z.ltb_ge. lia.
Qed.

Lemma sameKey_refl (key : Field) (a : User.t) : sameKey key a a = true.
Proof. apply sameKey_spec. now rewrite keyLtb_irrefl. Qed.

Lemma sameKey_sym (key : Field) (a b : User.t) :
  sameKey key a b = true -> sameKey key b a = true.
Proof. rewrite !sameKey_spec. tauto. Qed.

Lemma sameKey_trans (key : Field) (a b c : User.t) :
  sameKey key a b = true -> sameKey key b c = true -> sameKey key a c = true.
Proof.
  destruct key; simpl;
    try (repeat destruct (list_eq_dec ascii_dec _ _); congruence).
  rewrite !Z.eqb_eq. lia.
Qed.

(** Below, same or above: the key order is total. *)
Lemma keyLtb_negtrans (key : Field) (a b c : User.t) :
  keyLtb key c a = true -> keyLtb key c b = false -> keyLtb key b a = true.
Proof.
  intros Hca Hcb.
  destruct (keyLtb key b a) eqn:Hba; [reflexivity|].
  destruct (keyLtb key a b) eqn:Hab.
  - rewrite (keyLtb_trans _ _ _ _ Hca Hab) in Hcb. discriminate.
  - assert (Hs : sameKey key a b = true) by (apply sameKey_spec; tauto).
    destruct key; simpl in *;
      try (destruct (list_eq_dec ascii_dec _ _) as [E | E];
           [rewrite E in Hca; congruence | discriminate]).
    apply Z.eqb_eq in Hs. rewrite Hs in Hca. congruence.
Qed.

Lemma compareUsers_cases (key : Field) (dir : Z) (a b : User.t) :
  compareUsers key dir a b =
  if keyLtb key a b then -1 * dir
  else if keyLtb key b a then 1 * dir else 0.
Proof. destruct key; reflexivity. Qed.

Lemma InOrder_trans (key : Field) (dir : Z) (a b c : User.t) :
  InOrder key dir a b -> InOrder key dir b c -> InOrder key dir a c.
Proof.
  unfold InOrder.
  destruct (0 <? dir); rewrite <- !keyLtb_spec; intros Hab Hbc H.
  - apply Hab. apply (keyLtb_negtrans key a b c H).
    destruct (keyLtb key c b); [now elim Hbc | reflexivity].
  - apply Hbc. apply (keyLtb_negtrans key c b a H).
    destruct (keyLtb key a b); [now elim Hab | reflexivity].
Qed.

Lemma InOrder_refl (key : Field) (dir : Z) (a : User.t) : InOrder key dir a a.
Proof.
  unfold InOrder.
  destruct (0 <? dir); rewrite <- !keyLtb_spec, keyLtb_irrefl; discriminate.
Qed.

Lemma InOrder_antisym (key : Field) (dir : Z) (a b : User.t) :
  InOrder key dir a b -> InOrder key dir b a -> sameKey key a b = true.
Proof.
  unfold InOrder. rewrite sameKey_spec.
  destruct (0 <? dir); rewrite <- !keyLtb_spec;
    destruct (keyLtb key a b), (keyLtb key b a); tauto.
Qed.

Lemma compareUsers_le (key : Field) (dir : Z) (a b : User.t) :
  dir = 1 \/ dir = -1 ->
  compareUsers key dir a b <= 0 -> InOrder key dir a b.
Proof.
  unfold InOrder. rewrite compareUsers_cases.
  intros [-> | ->]; simpl; rewrite <- !keyLtb_spec;
    destruct (keyLtb key a b) eqn:Hab, (keyLtb key b a) eqn:Hba;
    try lia; try congruence.
  rewrite (keyLtb_asym _ _ _ Hab) in Hba. discriminate.
Qed.

Lemma compareUsers_gt (key : Field) (dir : Z) (a b : User.t) :
  dir = 1 \/ dir = -1 ->
  0 < compareUsers key dir a b -> InOrder key dir b a.
Proof.
  unfold InOrder. rewrite compareUsers_cases.
  intros [-> | ->]; simpl; rewrite <- !keyLtb_spec;
    destruct (keyLtb key a b) eqn:Hab, (keyLtb key b a) eqn:Hba;
    try lia; try congruence.
  rewrite (keyLtb_asym _ _ _ Hab) in Hba. discriminate.
Qed.

Lemma compareUsers_same (key : Field) (dir : Z) (r a b : User.t) :
  sameKey key r a = true -> sameKey key r b = true ->
  compareUsers key dir a b <= 0.
Proof.
  intros Ha Hb.
  assert (H : sameKey key a b = true).
  { eapply sameKey_trans; [apply sameKey_sym; exact Ha | exact Hb]. }
  apply sameKey_spec in H. destruct H as [H1 H2].
  rewrite compareUsers_cases, H1, H2. lia.
Qed.

Lemma sortStep_stable_sort (key : Field) (dir : Z) (l : list User.t) :
  dir = 1 \/ dir = -1 ->
  StableSortOf key dir l (sortBy (compareUsers key dir) l).
Proof.
  intros Hdir. repeat split.
  - apply sortBy_perm.
  - apply sortBy_sorted.
    + apply InOrder_trans.
    + intros a b. now apply compareUsers_le.
    + intros a b. now apply compareUsers_gt.
  - intros r. apply sortBy_stable. apply compareUsers_same.
Qed.

(** The stable sort of a list is unique. *)
Lemma StableSortOf_unique (key : Field) (dir : Z) (l o1 o2 : list User.t) :
  StableSortOf key dir l o1 -> StableSortOf key dir l o2 -> o1 = o2.
Proof.
  intros (_ & S1 & F1) (_ & S2 & F2).
  apply (stable_sorted_unique (InOrder key dir) (sameKey key)); auto.
  - apply sameKey_refl.
  - apply InOrder_antisym.
  - apply InOrder_refl.
  - intros r. now rewrite F1, F2.
Qed.

(** ** The view pipeline *)

Lemma filterStep_spec (st : State) (u : User.t) :
  In u (filterStep st) <->
  In u (users st) /\ Satisfies (filters st) (search st) u.
Proof. unfold filterStep. now rewrite filter_In, keepUser_spec. Qed.

Lemma filtered_recompute (st : State) :
  filtered (recompute st) = sortStep st (filterStep st).
Proof. reflexivity. Qed.

Lemma sortStep_perm (st : State) (l : list User.t) :
  Permutation l (sortStep st l).
Proof.
  unfold sortStep. destruct (sortKey st); [apply sortBy_perm | reflexivity].
Qed.

(** C1 (amended).  On strings of Latin-1 characters the filter step keeps,
    in collection order, exactly the records that satisfy the four per-field
    filters (an empty filter admitting everything) and, when the trimmed
    search term is not empty, whose display text contains the term; a value
    contains a filter when its lower-cased form holds the lower-cased filter,
    which on these strings is containment with letter case ignored.  The
    filtered list of the pipeline holds the same records; with no sort key it
    is that list. *)
Theorem filtered_exact (st : State) :
  exists keep : User.t -> bool,
    (forall u, keep u = true <-> SatisfiesLowered (filters st) (search st) u) /\
    (forall u, keep u = true <-> Satisfies (filters st) (search st) u) /\
    filterStep st = filter keep (users st) /\
    (forall u, In u (filtered (fst (applyAllFilters st))) <->
               In u (users st) /\ Satisfies (filters st) (search st) u) /\
    match sortKey st with
    | None => filtered (fst (applyAllFilters st)) = filter keep (users st)
    | Some _ =>
        Permutation (filter keep (users st))
                    (filtered (fst (applyAllFilters st)))
    end.
Proof.
  exists (keepUser (filters st) (toLowerCase (trim (search st)))).
  split; [intros u; apply keepUser_lowered|].
  split; [intros u; apply keepUser_spec|].
  split; [reflexivity|].
  split.
  - intros u. cbn [applyAllFilters fst]. rewrite filtered_recompute.
    rewrite <- filterStep_spec. split; intros H.
    + eapply Permutation_in; [symmetry; apply sortStep_perm | exact H].
    + eapply Permutation_in; [apply sortStep_perm | exact H].
  - cbn [applyAllFilters fst]. rewrite filtered_recompute.
    pose proof (sortStep_perm st (filterStep st)) as P.
    unfold sortStep in *. destruct (sortKey st); [exact P | reflexivity].
Qed.

(** C1 as worded fails above Latin-1, where lower-casing is not letter by
    letter: the name Thanasis in Greek capitals holds the filter of its first
    five letters as it stands, and the record is dropped, because the sigma
    that ends the filter becomes a final sigma and the one in the middle of
    the name does not. *)
Lemma final_sigma_drops_record :
  thanasis = thanas ++ [919; 931]%N /\
  toLowerCaseUnits thanasis = [952; 945; 957; 945; 963; 951; 962]%N /\
  toLowerCaseUnits thanas = [952; 945; 957; 945; 962]%N /\
  dropsByFilter thanas thanasis = true.
Proof. repeat split; reflexivity. Qed.

Lemma ceilDiv_ceiling (n p : Z) : 1 <= p -> IsCeiling n p (ceilDiv n p).
Proof.
  intros Hp. unfold IsCeiling, ceilDiv.
  pose proof (Z.div_mod (- n) p ltac:(lia)) as Hdm.
  pose proof (Z.mod_pos_bound (- n) p ltac:(lia)) as Hb.
  nia.
Qed.

Lemma IsCeiling_unique (n p c d : Z) :
  1 <= p -> IsCeiling n p c -> IsCeiling n p d -> c = d.
Proof. unfold IsCeiling. intros Hp Hc Hd. nia. Qed.

(** C2.  For a page size of at least 1 and a prior page of at least 1, after
    the recompute the total page count is the larger of 1 and the ceiling of
    the filtered count over the page size, and the current page lies between
    1 and the total page count. *)
Theorem page_window (st : State) :
  1 <= perPage st -> 1 <= page st ->
  let st' := fst (applyAllFilters st) in
  let n := Z.of_nat (length (filtered st')) in
  (exists c, IsCeiling n (perPage st') c /\ totalPages st' = Z.max 1 c) /\
  1 <= page st' <= totalPages st'.
Proof.
  intros Hp Hpage. cbn [applyAllFilters fst]. cbv zeta.
  split.
  - exists (ceilDiv (Z.of_nat (length (filtered (recompute st)))) (perPage st)).
    split; [now apply ceilDiv_ceiling | reflexivity].
  - cbn [recompute page totalPages].
    destruct (Z.ltb_spec
                (Z.max 1 (ceilDiv (Z.of_nat (length (sortStep st (filterStep st))))
                                  (perPage st)))
                (page st)); lia.
Qed.

Lemma page_window_witness :
  let st := mkState [] [] 3 10 1 None 1 (Filters.mk [] [] [] []) [] in
  let st' := fst (applyAllFilters st) in
  (exists c, IsCeiling (Z.of_nat (length (filtered st'))) (perPage st') c /\
             totalPages st' = Z.max 1 c) /\
  1 <= page st' <= totalPages st'.
Proof.
  apply (page_window (mkState [] [] 3 10 1 None 1 (Filters.mk [] [] [] []) []));
    simpl; lia.
Defined.

(** A page beyond the last one goes back to page 1, not to the last page. *)
Lemma page_beyond_last_resets (st : State) :
  totalPages (recompute st) < page st -> page (recompute st) = 1.
Proof.
  cbn [recompute page totalPages]. intros H.
  apply Z.ltb_lt in H. now rewrite H.
Qed.

(** C3.  With a sort key set, the filtered list of the pipeline is the
    stable sort of the filter step's result under the collation of the key
    (lower-cased text compared lexicographically, identifiers numerically):
    a rearrangement in order in which records of equal key keep their
    relative order.  With no sort key the order of the filter step stays. *)
Theorem sort_is_stable (st : State) :
  sortDir st = 1 \/ sortDir st = -1 ->
  match sortKey st with
  | Some key =>
      StableSortOf key (sortDir st) (filterStep st)
                   (filtered (fst (applyAllFilters st)))
  | None => filtered (fst (applyAllFilters st)) = filterStep st
  end.
Proof.
  intros Hdir. cbn [applyAllFilters fst]. rewrite filtered_recompute.
  unfold sortStep. destruct (sortKey st) as [key|]; [|reflexivity].
  now apply sortStep_stable_sort.
Qed.

Lemma recompute_idempotent (st : State) : recompute (recompute st) = recompute st.
Proof.
  unfold recompute at 1.
  change (filterStep (recompute st)) with (filterStep st).
  change (sortStep (recompute st) (filterStep st))
    with (sortStep st (filterStep st)).
  cbn [recompute users perPage sortKey sortDir filters search page].
  unfold recompute.
  set (total := Z.max 1 _).
  f_equal.
  destruct (Z.ltb_spec total (page st)) as [H | H].
  - assert (1 <= total) by (unfold total; lia).
    destruct (Z.ltb_spec total 1); [lia | reflexivity].
  - destruct (Z.ltb_spec total (page st)); [lia | reflexivity].
Qed.

(** C10.  Applying the pipeline to its own result, the inputs unchanged,
    gives the same derived state (filtered list, total page count, page) and
    the same rendered page as applying it once. *)
Theorem applyAllFilters_idempotent (st : State) :
  applyAllFilters (fst (applyAllFilters st)) = applyAllFilters st.
Proof.
  unfold applyAllFilters. cbn [fst]. now rewrite recompute_idempotent.
Qed.

(** ** Regular expressions: the derivative test decides the denotation *)

Lemma Matches_Void (w : str) : Matches Void w <-> False.
Proof. split; [inversion 1 | tauto]. Qed.

Lemma Matches_Eps (w : str) : Matches Eps w <-> w = [].
Proof. split; [now inversion 1 | intros ->; constructor]. Qed.

Lemma Matches_Class (p : ascii -> bool) (w : str) :
  Matches (Class p) w <-> exists c, w = [c] /\ p c = true.
Proof.
  split.
  - inversion 1; subst. eauto.
  - intros [c [-> H]]. now constructor.
Qed.

Lemma Matches_Cat (r s : regex) (w : str) :
  Matches (Cat r s) w <->
  exists u v, w = u ++ v /\ Matches r u /\ Matches s v.
Proof.
  split.
  - inversion 1; subst. eauto.
  - intros [u [v [-> [Hu Hv]]]]. now constructor.
Qed.

Lemma Matches_Alt (r s : regex) (w : str) :
  Matches (Alt r s) w <-> Matches r w \/ Matches s w.
Proof.
  split.
  - inversion 1; subst; tauto.
  - intros [H | H]; [now apply M_AltL | now apply M_AltR].
Qed.

Lemma Matches_Star_cons (r : regex) (c : ascii) (w : str) :
  Matches (Star r) (c :: w) ->
  exists u v, w = u ++ v /\ Matches r (c :: u) /\ Matches (Star r) v.
Proof.
  intros H. remember (Star r) as sr eqn:Er. remember (c :: w) as x eqn:Ex.
  revert w Ex.
  induction H as [| | | | | |r' u v Hu _ Hv IHv]; intros w Ex;
    try discriminate.
  injection Er as ->.
  destruct u as [|d u]; simpl in Ex.
  - now apply IHv.
  - injection Ex as -> <-. eauto.
Qed.

Lemma nullable_spec (r : regex) : nullable r = true <-> Matches r [].
Proof.
  induction r as [| |p|r IHr s IHs|r IHr s IHs|r IHr]; simpl.
  - rewrite Matches_Void. split; [discriminate | tauto].
  - rewrite Matches_Eps. tauto.
  - rewrite Matches_Class. split; [discriminate | intros [c [H _]]; discriminate].
  - rewrite andb_true_iff, IHr, IHs, Matches_Cat. split.
    + intros [Hr Hs]. now exists [], [].
    + intros [u [v [E [Hu Hv]]]]. symmetry in E.
      apply app_eq_nil in E. destruct E as [-> ->]. tauto.
  - rewrite orb_true_iff, IHr, IHs, Matches_Alt. tauto.
  - split; [intros _; constructor | reflexivity].
Qed.

Lemma deriv_spec (c : ascii) (r : regex) (w : str) :
  Matches (deriv c r) w <-> Matches r (c :: w).
Proof.
  revert w.
  induction r as [| |p|r IHr s IHs|r IHr s IHs|r IHr]; intros w; simpl.
  - rewrite !Matches_Void. tauto.
  - rewrite Matches_Void, Matches_Eps. split; [tauto | discriminate].
  - rewrite Matches_Class. destruct (p c) eqn:Hp.
    + rewrite Matches_Eps. split.
      * intros ->. eauto.
      * intros [d [E _]]. now injection E.
    + rewrite Matches_Void. split; [tauto|].
      intros [d [E Hd]]. injection E as -> _. congruence.
  - assert (Hcat : Matches (Cat (deriv c r) s) w <->
                   exists u v, w = u ++ v /\ Matches r (c :: u) /\ Matches s v).
    { rewrite Matches_Cat. split; intros [u [v [E [Hu Hv]]]];
        exists u, v; (split; [exact E|]); (split; [|exact Hv]);
        now apply IHr. }
    rewrite (Matches_Cat r s (c :: w)).
    destruct (nullable r) eqn:Hn.
    + rewrite Matches_Alt, Hcat, IHs. split.
      * intros [[u [v [-> [Hu Hv]]]] | Hs].
        -- exists (c :: u), v. auto.
        -- exists [], (c :: w). split; [reflexivity|].
           split; [now apply nullable_spec | exact Hs].
      * intros [[|d u] [v [E [Hu Hv]]]]; simpl in E.
        -- right. now rewrite E.
        -- left. injection E as <- ->. eauto.
    + rewrite Hcat. split.
      * intros [u [v [-> [Hu Hv]]]]. exists (c :: u), v. auto.
      * intros [[|d u] [v [E [Hu Hv]]]]; simpl in E.
        -- apply nullable_spec in Hu. congruence.
        -- injection E as <- ->. eauto.
  - rewrite !Matches_Alt, IHr, IHs. tauto.
  - rewrite Matches_Cat. split.
    + intros [u [v [-> [Hu Hv]]]]. apply IHr in Hu.
      change (c :: u ++ v) with ((c :: u) ++ v). now constructor.
    + intros H. apply Matches_Star_cons in H.
      destruct H as [u [v [-> [Hu Hv]]]]. exists u, v.
      split; [reflexivity|]. split; [now apply IHr | exact Hv].
Qed.

Lemma test_spec (r : regex) (w : str) : test r w = true <-> Matches r w.
Proof.
  revert r; induction w as [|c w IH]; intros r; simpl.
  - apply nullable_spec.
  - now rewrite IH, deriv_spec.
Qed.

Lemma Matches_Star_Class (p : ascii -> bool) (w : str) :
  Matches (Star (Class p)) w <-> Forall (fun c => p c = true) w.
Proof.
  induction w as [|c w IH].
  - split; constructor.
  - split.
    + intros H. apply Matches_Star_cons in H.
      destruct H as [u [v [-> [Hu Hv]]]].
      apply Matches_Class in Hu. destruct Hu as [d [E Hd]].
      injection E as <- ->. constructor; [exact Hd | now apply IH].
    + inversion 1; subst.
      change (c :: w) with ([c] ++ w).
      constructor; [now constructor | now apply IH].
Qed.

Lemma Matches_Plus_Class (p : ascii -> bool) (w : str) :
  Matches (Plus (Class p)) w <-> w <> [] /\ Forall (fun c => p c = true) w.
Proof.
  unfold Plus. rewrite Matches_Cat. split.
  - intros [u [v [-> [Hu Hv]]]].
    apply Matches_Class in Hu. destruct Hu as [c [-> Hc]].
    apply Matches_Star_Class in Hv. split; [discriminate | now constructor].
  - intros [Hne H]. destruct w as [|c w]; [congruence|].
    inversion H; subst. exists [c], w. split; [reflexivity|].
    split; [now constructor | now apply Matches_Star_Class].
Qed.

Lemma notSpaceNorAt_spec (c : ascii) :
  notSpaceNorAt c = true <-> isSpace c = false /\ c <> "@"%char.
Proof.
  unfold notSpaceNorAt.
  rewrite negb_true_iff, orb_false_iff, Ascii.eqb_neq. tauto.
Qed.

Lemma Matches_plain (w : str) :
  Matches (Plus (Class notSpaceNorAt)) w <-> Plain w.
Proof.
  rewrite Matches_Plus_Class. unfold Plain.
  rewrite !Forall_forall.
  split; intros [Hne H]; (split; [exact Hne|]); intros c Hc;
    apply notSpaceNorAt_spec; auto.
Qed.

Lemma Matches_char (d : ascii) (w : str) :
  Matches (Class (Ascii.eqb d)) w <-> w = [d].
Proof.
  rewrite Matches_Class. split.
  - intros [c [-> H]]. apply Ascii.eqb_eq in H. now subst.
  - intros ->. exists d. split; [reflexivity | apply Ascii.eqb_refl].
Qed.

(** The pattern of [validateEmail] accepts exactly the addresses of the
    shape local-part [@] domain with a dot inside the domain. *)
Lemma validateEmail_spec (e : str) : validateEmail e = true <-> EmailShape e.
Proof.
  unfold validateEmail, emailPattern, EmailShape. rewrite test_spec.
  split.
  - intros H.
    apply Matches_Cat in H. destruct H as [loc [w1 [-> [Hloc H]]]].
    apply Matches_Cat in H. destruct H as [at_ [w2 [-> [Hat H]]]].
    apply Matches_Cat in H. destruct H as [dom [w3 [-> [Hdom H]]]].
    apply Matches_Cat in H. destruct H as [dot [tld [-> [Hdot Htld]]]].
    apply Matches_char in Hat, Hdot. subst at_ dot.
    apply Matches_plain in Hloc, Hdom, Htld.
    exists loc, dom, tld. simpl. tauto.
  - intros [loc [dom [tld [-> [Hloc [Hdom Htld]]]]]].
    apply Matches_plain in Hloc, Hdom, Htld.
    apply M_Cat; [exact Hloc|].
    apply (M_Cat _ _ ["@"%char]); [now apply Matches_char|].
    apply M_Cat; [exact Hdom|].
    apply (M_Cat _ _ ["."%char]); [now apply Matches_char | exact Htld].
Qed.

(** ** The mutation coordinator *)

Lemma EmailShape_nonempty (e : str) : EmailShape e -> e <> [].
Proof.
  intros [loc [dom [tld [-> _]]]]. destruct loc; discriminate.
Qed.

Lemma ok_spec (status : Z) : ok status = true <-> Is2xx status.
Proof. unfold ok, Is2xx. rewrite andb_true_iff, !Z.leb_le. tauto. Qed.

Lemma truthyStr_true (s : str) : truthyStr s = true <-> s <> [].
Proof. destruct s; simpl; split; congruence. Qed.

(** The two checks of the submit handler pass exactly on a valid draft. *)
Lemma checks_pass_iff (f : Form) :
  (negb (truthyStr (draftFirst f)) || negb (truthyStr (draftEmail f)) = false /\
   negb (validateEmail (draftEmail f)) = false)
  <-> ValidDraft f.
Proof.
  unfold ValidDraft.
  rewrite orb_false_iff, !negb_false_iff, !truthyStr_true, validateEmail_spec.
  split; [tauto|]. intros [H1 H2].
  pose proof (EmailShape_nonempty _ H2). tauto.
Qed.

(** The submit handler run without interruption, written out. *)
Lemma submitForm_unfold (remote : Remote) (f : Form) (a0 : App) :
  submitForm remote f a0 =
  let a := hideFormError a0 in
  let first := trim (firstName f) in
  let last := trim (lastName f) in
  let email := trim (emailInput f) in
  let dept := trim (departmentInput f) in
  if negb (truthyStr first) || negb (truthyStr email) then
    showFormError RequiredFields a
  else if negb (validateEmail email) then
    showFormError InvalidEmail a
  else
    match editingTarget (editingId a) with
    | Some eid =>
        let localUser := User.mk eid first last email dept in
        let (a1, reply) :=
          send remote (updateRequest eid first last email dept) a in
        match reply with
        | NetworkError => showFormError (ApiError FetchRejected) a1
        | Response status _ =>
            if negb (ok status) then
              showFormError (ApiError (UpdateNotOk status)) a1
            else
              let us := map (replaceById eid localUser) (users (state a1)) in
              closeEditModal
                (withState a1 (applyAllFilters (withUsers (state a1) us)))
        end
    | None =>
        let (a1, reply) :=
          send remote (createRequest first last email dept) a in
        match reply with
        | NetworkError => showFormError (ApiError FetchRejected) a1
        | Response status body =>
            if negb (ok status) then
              showFormError (ApiError (CreateNotOk status)) a1
            else
              match body with
              | NotJson => showFormError (ApiError BodyUnreadable) a1
              | JsonObject _ | JsonArray _ =>
                  let newId := newIdFor (bodyId body) (users (state a1)) in
                  let us :=
                    User.mk newId first last email dept :: users (state a1) in
                  closeEditModal
                    (withState a1 (applyAllFilters (withUsers (state a1) us)))
              end
        end
    end.
Proof.
  unfold submitForm, submitStart, send, post.
  destruct (_ || _); [reflexivity|].
  destruct (negb (validateEmail _)); [reflexivity|].
  cbn [hideFormError editingId state view formError errorBanner
       editModalOpen sent].
  destruct (editingId a0) as [n|]; cbn [editingTarget];
    [destruct (n =? 0)|]; reflexivity.
Qed.

Lemma submitForm_invalid (remote : Remote) (f : Form) (a : App) :
  ~ ValidDraft f ->
  exists msg, (msg = RequiredFields \/ msg = InvalidEmail) /\
              submitForm remote f a = showFormError msg (hideFormError a).
Proof.
  intros Hinv. rewrite submitForm_unfold; cbv zeta.
  fold (draftFirst f) (draftEmail f).
  destruct (negb (truthyStr (draftFirst f)) || negb (truthyStr (draftEmail f)))
    eqn:E1; [eauto|].
  destruct (negb (validateEmail (draftEmail f))) eqn:E2; [eauto|].
  exfalso. apply Hinv. apply checks_pass_iff. auto.
Qed.

(** The local record an update puts in place, and the one a create adds. *)
Lemma submitForm_update (remote : Remote) (f : Form) (a : App)
      (eid status : Z) (body : Body) :
  editingTarget (editingId a) = Some eid ->
  ValidDraft f ->
  remote (updateRequest eid (draftFirst f) (draftLast f) (draftEmail f)
                        (draftDept f)) = Response status body ->
  Is2xx status ->
  let draft :=
    User.mk eid (draftFirst f) (draftLast f) (draftEmail f) (draftDept f) in
  let us := map (replaceById eid draft) (users (state a)) in
  let a' := submitForm remote f a in
  (state a', view a') = applyAllFilters (withUsers (state a) us) /\
  editingId a' = None /\ editModalOpen a' = false /\ formError a' = None.
Proof.
  intros He Hv Hr Hs. apply checks_pass_iff in Hv. destruct Hv as [C1 C2].
  apply ok_spec in Hs.
  cbv zeta. rewrite submitForm_unfold; cbv zeta.
  fold (draftFirst f) (draftLast f) (draftEmail f) (draftDept f).
  rewrite C1, C2. cbn [hideFormError editingId]. rewrite He.
  unfold send. rewrite Hr, Hs. cbn. auto.
Qed.

Lemma submitForm_create (remote : Remote) (f : Form) (a : App)
      (status : Z) (body : Body) :
  editingTarget (editingId a) = None ->
  ValidDraft f ->
  remote (createRequest (draftFirst f) (draftLast f) (draftEmail f)
                        (draftDept f)) = Response status body ->
  Is2xx status ->
  body <> NotJson ->
  let created :=
    User.mk (newIdFor (bodyId body) (users (state a)))
            (draftFirst f) (draftLast f) (draftEmail f) (draftDept f) in
  let a' := submitForm remote f a in
  (state a', view a') =
    applyAllFilters (withUsers (state a) (created :: users (state a))) /\
  editingId a' = None /\ editModalOpen a' = false /\ formError a' = None.
Proof.
  intros He Hv Hr Hs Hb. apply checks_pass_iff in Hv. destruct Hv as [C1 C2].
  apply ok_spec in Hs.
  cbv zeta. rewrite submitForm_unfold; cbv zeta.
  fold (draftFirst f) (draftLast f) (draftEmail f) (draftDept f).
  rewrite C1, C2. cbn [hideFormError editingId]. rewrite He.
  unfold send. rewrite Hr, Hs. cbn [negb].
  destruct body; [congruence | cbn; auto | cbn; auto].
Qed.

(** Whatever the reply, a submission leaves the collection as it was, or
    replaces by identifier, or adds one record in front. *)
Lemma submitForm_users (remote : Remote) (f : Form) (a : App) :
  let us := users (state a) in
  let us' := users (state (submitForm remote f a)) in
  us' = us \/
  (exists eid d, User.id d = eid /\ us' = map (replaceById eid d) us) \/
  (exists body d,
     User.id d = newIdFor (bodyId body) us /\ us' = d :: us /\
     exists status,
       remote (createRequest (draftFirst f) (draftLast f) (draftEmail f)
                             (draftDept f)) = Response status body).
Proof.
  cbv zeta. rewrite submitForm_unfold; cbv zeta.
  fold (draftFirst f) (draftLast f) (draftEmail f) (draftDept f).
  destruct (negb (truthyStr (draftFirst f)) || negb (truthyStr (draftEmail f)));
    [now left|].
  destruct (negb (validateEmail (draftEmail f))); [now left|].
  cbn [hideFormError editingId].
  destruct (editingTarget (editingId a)) as [eid|]; unfold send.
  - destruct (remote _) as [|status body]; [now left|].
    destruct (negb (ok status)); [now left|].
    right; left. eexists _, _. split; [|reflexivity]. reflexivity.
  - destruct (remote _) as [|status body] eqn:Hr; [now left|].
    destruct (negb (ok status)); [now left|].
    destruct body as [|i|data]; [now left | |];
      right; right; eexists _, _;
      (split; [|split; [reflexivity | eexists; reflexivity]]); reflexivity.
Qed.

Lemma trim_nil : trim [] = [].
Proof. reflexivity. Qed.

(** C8.  A submission whose first name is empty, or whose email is not of
    the shape local-part [@] domain with a dot in the domain, is rejected
    before any request leaves: no request is sent, the state and with it the
    local collection stay as they were, and the form shows an error. *)
Theorem invalid_submission_rejected (remote : Remote) (f : Form) (a : App) :
  draftFirst f = [] \/ ~ EmailShape (draftEmail f) ->
  let a' := submitForm remote f a in
  sent a' = sent a /\
  state a' = state a /\
  users (state a') = users (state a) /\
  (formError a' = Some RequiredFields \/ formError a' = Some InvalidEmail).
Proof.
  intros Hbad. cbv zeta.
  destruct (submitForm_invalid remote f a) as [msg [Hmsg ->]].
  { unfold ValidDraft. tauto. }
  cbn. destruct Hmsg as [-> | ->]; auto.
Qed.

Lemma invalid_submission_rejected_witness :
  let f := mkForm [] (lit "Doe") (lit "jane@widget.co") [] in
  let a := appWith [user3; user7] None in
  let a' := submitForm placeholderRemote f a in
  sent a' = sent a /\
  state a' = state a /\
  users (state a') = users (state a) /\
  (formError a' = Some RequiredFields \/ formError a' = Some InvalidEmail).
Proof.
  apply (invalid_submission_rejected placeholderRemote
           (mkForm [] (lit "Doe") (lit "jane@widget.co") []) ).
  left. reflexivity.
Defined.

(** An address without a dot after the [@] is turned down as well. *)
Lemma dotless_domain_rejected :
  formError (submitForm placeholderRemote
               (mkForm (lit "Jane") [] (lit "jane@widget") [])
               (appWith [user3] None))
  = Some InvalidEmail.
Proof. reflexivity. Qed.

(** ** Replacing by identifier *)

Section Replace.
Variable eid : Z.
Variable d : User.t.
Hypothesis d_id : User.id d = eid.

Lemma replace_ids (us : list User.t) :
  map User.id (map (replaceById eid d) us) = map User.id us.
Proof.
  rewrite map_map. apply map_ext. intros u. unfold replaceById.
  destruct (Z.eqb_spec (User.id u) eid); congruence.
Qed.

Lemma replace_pointwise (us : list User.t) :
  Forall2 (fun u u' => (User.id u = eid -> u' = d) /\
                       (User.id u <> eid -> u' = u))
          us (map (replaceById eid d) us).
Proof.
  induction us as [|u us IH]; simpl; constructor; [|exact IH].
  unfold replaceById. destruct (Z.eqb_spec (User.id u) eid); split; congruence.
Qed.

Lemma replace_others (us : list User.t) :
  ~ In eid (map User.id us) -> map (replaceById eid d) us = us.
Proof.
  induction us as [|u us IH]; simpl; intros H; [reflexivity|].
  unfold replaceById at 1. destruct (Z.eqb_spec (User.id u) eid); [tauto|].
  f_equal. apply IH. tauto.
Qed.

Lemma replace_single (pre post : list User.t) (u : User.t) :
  NoDup (map User.id (pre ++ u :: post)) -> User.id u = eid ->
  map (replaceById eid d) (pre ++ u :: post) = pre ++ d :: post.
Proof.
  intros Hnd Hu. rewrite map_app in Hnd. cbn [map] in Hnd.
  apply NoDup_remove_2 in Hnd. rewrite Hu in Hnd.
  rewrite in_app_iff in Hnd.
  rewrite map_app. cbn [map]. unfold replaceById at 2.
  rewrite Hu, Z.eqb_refl.
  rewrite !replace_others by tauto. reflexivity.
Qed.
End Replace.

(** When the reply to an update arrives before any other event, the record
    whose identifier is the edited one is replaced by the draft and nothing
    else changes: the length and the identifier at every position stay, every
    record with another identifier stays, and with unique identifiers exactly
    one position changes. *)
Lemma update_replaces_by_id (remote : Remote) (f : Form) (a : App)
        (eid status : Z) (body : Body) :
  editingId a = Some eid -> eid <> 0 ->
  ValidDraft f ->
  remote (updateRequest eid (draftFirst f) (draftLast f) (draftEmail f)
                        (draftDept f)) = Response status body ->
  Is2xx status ->
  let draft :=
    User.mk eid (draftFirst f) (draftLast f) (draftEmail f) (draftDept f) in
  let us := users (state a) in
  let us' := users (state (submitForm remote f a)) in
  length us' = length us /\
  map User.id us' = map User.id us /\
  Forall2 (fun u u' => (User.id u = eid -> u' = draft) /\
                       (User.id u <> eid -> u' = u)) us us' /\
  (NoDup (map User.id us) ->
   forall pre u post,
     us = pre ++ u :: post -> User.id u = eid -> us' = pre ++ draft :: post).
Proof.
  intros He Hne Hv Hr Hs. cbv zeta.
  assert (Ht : editingTarget (editingId a) = Some eid).
  { rewrite He. simpl. destruct (Z.eqb_spec eid 0); congruence. }
  destruct (submitForm_update remote f a eid status body Ht Hv Hr Hs)
    as [Hst _].
  cbv zeta in Hst.
  assert (Hus : users (state (submitForm remote f a)) =
                map (replaceById eid
                       (User.mk eid (draftFirst f) (draftLast f)
                                (draftEmail f) (draftDept f)))
                    (users (state a))).
  { apply (f_equal fst) in Hst. cbn [fst] in Hst. now rewrite Hst. }
  rewrite Hus. repeat split.
  - apply length_map.
  - now apply replace_ids.
  - apply replace_pointwise.
  - intros Hnd pre u post E Hu. rewrite E in *.
    now apply replace_single.
Qed.

(** The records a confirmed update replaces are those whose identifier is
    [Number (editingId)] when the reply arrives. *)
Lemma resume_update_users (d : User.t) (status : Z) (body : Body) (a : App) :
  Is2xx status ->
  users (state (resume (AwaitUpdate d) (Response status body) a)) =
  map (replaceById (numberOf (editingId a)) d) (users (state a)).
Proof.
  intros Hs. apply ok_spec in Hs. cbn [resume]. now rewrite Hs.
Qed.

(** C7.  The code does not keep to the claim when another event comes
    between the submission and its reply: the update replaces the records
    whose identifier is [editingId] as it is when the reply arrives.  With the
    records 3 and 5, the update of record 3 confirmed after Cancel and Edit of
    record 5 overwrites record 5 and leaves record 3, so that two records
    carry the identifier 3; confirmed after Cancel alone it replaces nothing;
    confirmed before any other event it replaces record 3, as claimed. *)
Theorem update_replaces_row_edited_at_reply :
  let y0 := mkSystem (appWith [user3; user5] None) [] in
  let draft :=
    User.mk 3 (lit "Jane") (lit "Doe") (lit "jane@widget.co") (lit "Widget") in
  let confirmed := Settle 0 (Response 200 (JsonObject (Some 3))) in
  users (state (appOf (play [Fire (ClickEdit 3); Fire (Submit sampleForm);
                             Fire CancelEdit; Fire (ClickEdit 5); confirmed]
                            y0)))
  = [user3; draft] /\
  users (state (appOf (play [Fire (ClickEdit 3); Fire (Submit sampleForm);
                             Fire CancelEdit; confirmed] y0)))
  = [user3; user5] /\
  users (state (appOf (play [Fire (ClickEdit 3); Fire (Submit sampleForm);
                             confirmed] y0)))
  = [draft; user5].
Proof. repeat split; reflexivity. Qed.

(** ** Identifiers *)

Lemma maxWithZero_spec (xs : list Z) : IsMaxWithZero xs (maxWithZero xs).
Proof.
  unfold IsMaxWithZero. induction xs as [|x xs (Hin & H0 & Hall)]; simpl.
  - repeat split; [now left | lia | constructor].
  - repeat split.
    + destruct (Z.max_spec x (maxWithZero xs)) as [[_ ->] | [_ ->]];
        [destruct Hin; auto | auto].
    + lia.
    + constructor; [lia|].
      eapply Forall_impl; [|exact Hall]. simpl. intros; lia.
Qed.

Lemma IsMaxWithZero_unique (xs : list Z) (m m' : Z) :
  IsMaxWithZero xs m -> IsMaxWithZero xs m' -> m = m'.
Proof.
  unfold IsMaxWithZero. rewrite !Forall_forall.
  intros ([-> | Hi] & H0 & Ha) ([-> | Hi'] & H0' & Ha'); try reflexivity.
  - specialize (Ha _ Hi'). lia.
  - specialize (Ha' _ Hi). lia.
  - specialize (Ha _ Hi'). specialize (Ha' _ Hi). lia.
Qed.

Lemma plusOne_exact (x : Z) : x < two53 -> plusOne x = x + 1.
Proof.
  intros H. unfold plusOne. destruct (Z.ltb_spec x two53); [reflexivity | lia].
Qed.

(** At 2^53 the sum is 2^53 again. *)
Lemma plusOne_stalls : plusOne two53 = two53.
Proof. reflexivity. Qed.

Lemma next_id_fresh (xs : list Z) :
  maxWithZero xs < two53 -> ~ In (plusOne (maxWithZero xs)) xs.
Proof.
  intros Hlt. rewrite plusOne_exact by exact Hlt.
  destruct (maxWithZero_spec xs) as (_ & _ & Hall).
  rewrite Forall_forall in Hall. intros Hin. specialize (Hall _ Hin). lia.
Qed.

(** What the submit handler sends and keeps for a draft that passes the
    checks. *)
Lemma submitStart_valid (f : Form) (a : App) :
  ValidDraft f ->
  submitStart f a =
  match editingTarget (editingId a) with
  | Some eid =>
      let rq := updateRequest eid (draftFirst f) (draftLast f) (draftEmail f)
                              (draftDept f) in
      (post rq (hideFormError a),
       Some (rq, AwaitUpdate (User.mk eid (draftFirst f) (draftLast f)
                                      (draftEmail f) (draftDept f))))
  | None =>
      let rq := createRequest (draftFirst f) (draftLast f) (draftEmail f)
                              (draftDept f) in
      (post rq (hideFormError a),
       Some (rq, AwaitCreate (draftFirst f) (draftLast f) (draftEmail f)
                             (draftDept f)))
  end.
Proof.
  intros Hv. apply checks_pass_iff in Hv. destruct Hv as [C1 C2].
  unfold submitStart. cbv zeta.
  fold (draftFirst f) (draftLast f) (draftEmail f) (draftDept f).
  rewrite C1, C2. reflexivity.
Qed.




(** ** Delete *)

Lemma delete_condition (status : Z) :
  negb (ok status) && negb (status =? 200) && negb (status =? 204)
  = negb (ok status).
Proof.
  unfold ok.
  destruct (Z.leb_spec 200 status), (Z.leb_spec status 299),
           (Z.eqb_spec status 200), (Z.eqb_spec status 204);
    simpl; try reflexivity; lia.
Qed.

Lemma deleteUser_users (remote : Remote) (id : Z) (a : App) :
  users (state (deleteUser remote true id a)) =
  match remote (deleteRequest id) with
  | NetworkError => users (state a)
  | Response status _ =>
      if ok status
      then filter (fun u => negb (User.id u =? id)) (users (state a))
      else users (state a)
  end.
Proof.
  unfold deleteUser, send. cbn [negb].
  destruct (remote (deleteRequest id)) as [|status body]; [reflexivity|].
  rewrite delete_condition. destruct (ok status); reflexivity.
Qed.

Lemma deleteUser_failed (remote : Remote) (id : Z) (a : App) :
  match remote (deleteRequest id) with
  | NetworkError => True
  | Response status _ => ok status = false
  end ->
  state (deleteUser remote true id a) = state a /\
  exists cause, errorBanner (deleteUser remote true id a)
                = Some (DeleteError cause).
Proof.
  unfold deleteUser, send. cbn [negb].
  destruct (remote (deleteRequest id)) as [|status body].
  - intros _. split; [reflexivity | eexists; reflexivity].
  - intros H. rewrite delete_condition, H.
    split; [reflexivity | eexists; reflexivity].
Qed.

Lemma filter_removes_some (id : Z) (us : list User.t) :
  (exists u, In u us /\ User.id u = id) ->
  filter (fun u => negb (User.id u =? id)) us <> us.
Proof.
  intros [u [Hin Hid]] E. rewrite <- E in Hin.
  apply filter_In in Hin. destruct Hin as [_ H].
  rewrite Hid, Z.eqb_refl in H. discriminate.
Qed.

(** C6.  A confirmed delete removes from the local collection the records
    with the given identifier, and only those, when the response status is in
    the 2xx range (200 and 204 included); on any other status and on a network
    error the state, and with it the collection, stays as it was and the
    banner shows the failure.  So a record with that identifier disappears if
    and only if the status is 2xx. *)
Theorem delete_on_2xx_only (remote : Remote) (id : Z) (a : App) :
  let a' := deleteUser remote true id a in
  let us := users (state a) in
  (forall status body,
      remote (deleteRequest id) = Response status body -> Is2xx status ->
      users (state a') = filter (fun u => negb (User.id u =? id)) us /\
      (forall u, In u (users (state a')) <-> In u us /\ User.id u <> id)) /\
  (forall status body,
      remote (deleteRequest id) = Response status body -> ~ Is2xx status ->
      state a' = state a /\
      exists cause, errorBanner a' = Some (DeleteError cause)) /\
  (remote (deleteRequest id) = NetworkError ->
   state a' = state a /\
   exists cause, errorBanner a' = Some (DeleteError cause)) /\
  ((exists u, In u us /\ User.id u = id) ->
   (users (state a') <> us <->
    exists status body,
      remote (deleteRequest id) = Response status body /\ Is2xx status)).
Proof.
  cbv zeta. pose proof (deleteUser_users remote id a) as Hus.
  pose proof (deleteUser_failed remote id a) as Hfail.
  split; [|split; [|split]].
  - intros status body Hr Hs. rewrite Hr in Hus.
    apply ok_spec in Hs. rewrite Hs in Hus. split; [exact Hus|].
    intros u. rewrite Hus, filter_In, negb_true_iff, Z.eqb_neq. tauto.
  - intros status body Hr Hs. rewrite Hr in Hfail. apply Hfail.
    destruct (ok status) eqn:E; [|reflexivity].
    apply ok_spec in E. contradiction.
  - intros Hr. rewrite Hr in Hfail. now apply Hfail.
  - intros Hex. rewrite Hus.
    destruct (remote (deleteRequest id)) as [|status body].
    + split; [congruence | intros (s & b & H & _); discriminate].
    + destruct (ok status) eqn:E.
      * split; [|intros _; now apply filter_removes_some].
        intros _. exists status, body. split; [reflexivity|].
        now apply ok_spec.
      * split; [congruence|]. intros (s & b & H & Hs).
        injection H as <- <-. apply ok_spec in Hs. congruence.
Qed.

(** Deleting the record 7 when the service answers 500 leaves the record 7
    in place and shows the delete failure. *)
Lemma delete_on_2xx_only_witness :
  let remote := answering (Response 500 NotJson) in
  let a := appWith [user3; user7] None in
  In user7 (users (state (deleteUser remote true 7 a))) /\
  exists cause, errorBanner (deleteUser remote true 7 a)
                = Some (DeleteError cause).
Proof.
  cbv zeta.
  destruct (delete_on_2xx_only (answering (Response 500 NotJson)) 7
              (appWith [user3; user7] None)) as (_ & H & _).
  destruct (H 500 NotJson eq_refl ltac:(unfold Is2xx; lia)) as [Hst Hb].
  split; [rewrite Hst; simpl; auto | exact Hb].
Defined.

Lemma delete_204_removes :
  users (state (deleteUser (answering (Response 204 NotJson)) true 7
                           (appWith [user3; user7] None))) = [user3].
Proof. reflexivity. Qed.

(** ** Unique identifiers *)

Lemma makeUserFromAPI_id (u : Raw.t) : User.id (makeUserFromAPI u) = Raw.id u.
Proof. unfold makeUserFromAPI. now destruct (splitName (Raw.name u)). Qed.

Lemma load_ids (data : list Raw.t) :
  map User.id (map makeUserFromAPI data) = map Raw.id data.
Proof. rewrite map_map. apply map_ext, makeUserFromAPI_id. Qed.


Lemma loadUsers_ids (remote : Remote) (a : App) :
  ids (loadUsers remote a) = ids a \/
  exists status data,
    remote loadRequest = Response status (JsonArray data) /\
    ids (loadUsers remote a) = map Raw.id data.
Proof.
  unfold loadUsers, send.
  destruct (remote loadRequest) as [|status body] eqn:Hr; [now left|].
  destruct (negb (ok status)); [now left|].
  destruct body as [|i|data]; [now left | now left |].
  right. exists status, data. split; [reflexivity|].
  unfold ids. cbn. apply load_ids.
Qed.



(** A handler whose reply arrives before any other event is the part that
    runs at once followed by the part that the reply resumes. *)
Lemma handle_fire_resume (remote : Remote) (ev : Event) (a : App) :
  handle remote ev a =
  match fire ev a with
  | (a1, Some (rq, p)) => resume p (remote rq) a1
  | (a1, None) => a1
  end.
Proof.
  destruct ev as [|f|id| | |confirmed id|key| | |n|term|flt|];
    cbn [handle fire]; try reflexivity.
  destruct confirmed; reflexivity.
Qed.




(** ** Sorting: scenarios *)

Lemma sort_is_stable_witness :
  let st := mkState [user7; user3; User.mk 5 (lit "kurtis") [] [] []] []
                    1 10 1 (Some FFirst) 1 (Filters.mk [] [] [] []) [] in
  StableSortOf FFirst 1 (filterStep st) (filtered (fst (applyAllFilters st))).
Proof.
  exact (sort_is_stable
           (mkState [user7; user3; User.mk 5 (lit "kurtis") [] [] []] []
                    1 10 1 (Some FFirst) 1 (Filters.mk [] [] [] []) [])
           (or_introl eq_refl)).
Defined.

(** Two first names that differ in letter case only keep their order, in
    both directions. *)
Lemma sort_keeps_ties :
  let us := [user7; user3; User.mk 5 (lit "kurtis") [] [] []] in
  let st dir := mkState us [] 1 10 1 (Some FFirst) dir
                        (Filters.mk [] [] [] []) [] in
  map User.id (filtered (fst (applyAllFilters (st 1)))) = [3; 7; 5] /\
  map User.id (filtered (fst (applyAllFilters (st (-1))))) = [7; 5; 3].
Proof. split; reflexivity. Qed.

(** ** The record normalizer *)

Lemma Tokens_space_cons (c : ascii) (s : str) (ts : list str) :
  isSpace c = true -> Tokens s ts -> Tokens (c :: s) ts.
Proof.
  intros Hc H. destruct H as [s Hs | ws w rest ts Hws Hne Hw Hrest Hts].
  - apply Tokens_blank. now constructor.
  - change (c :: ws ++ w ++ rest) with ((c :: ws) ++ w ++ rest).
    apply Tokens_word; auto. now constructor.
Qed.

Lemma Tokens_word_here (w rest : str) (ts : list str) :
  w <> [] -> NoSpaces w -> isSpace (hd " "%char rest) = true ->
  Tokens rest ts -> Tokens (w ++ rest) (w :: ts).
Proof.
  intros. change (w ++ rest) with ([] ++ w ++ rest).
  apply Tokens_word; auto. constructor.
Qed.

Lemma tokensFrom_Tokens (s : str) :
  Tokens s (tokensFrom [] s) /\
  forall cur, cur <> [] -> NoSpaces cur ->
              Tokens (rev cur ++ s) (tokensFrom cur s).
Proof.
  induction s as [|c t [IH1 IH2]].
  - split; [apply Tokens_blank; constructor|].
    intros [|k cur] Hne Hcur; [congruence|]. cbn [tokensFrom].
    apply Tokens_word_here.
    + intros E. apply (f_equal (@length ascii)) in E.
      rewrite length_rev in E. discriminate.
    + now apply Forall_rev.
    + reflexivity.
    + apply Tokens_blank. constructor.
  - split.
    + cbn [tokensFrom]. destruct (isSpace c) eqn:Hc.
      * now apply Tokens_space_cons.
      * apply (IH2 [c]); [discriminate | now repeat constructor].
    + intros [|k cur] Hne Hcur; [congruence|]. cbn [tokensFrom].
      destruct (isSpace c) eqn:Hc.
      * apply Tokens_word_here.
        -- intros E. apply (f_equal (@length ascii)) in E.
           rewrite length_rev in E. discriminate.
        -- now apply Forall_rev.
        -- exact Hc.
        -- now apply Tokens_space_cons.
      * replace (rev (k :: cur) ++ c :: t) with (rev (c :: k :: cur) ++ t)
          by (cbn [rev]; now rewrite <- !app_assoc).
        apply IH2; [discriminate | now constructor].
Qed.

(** The tokens computed from the left are the tokens of the string. *)
Lemma tokens_Tokens (s : str) : Tokens s (tokens s).
Proof. apply tokensFrom_Tokens. Qed.

Lemma tokensFrom_spaces (ws s : str) :
  AllSpaces ws -> tokensFrom [] (ws ++ s) = tokensFrom [] s.
Proof.
  induction 1 as [|c ws Hc _ IH]; [reflexivity|].
  cbn [app tokensFrom]. now rewrite Hc.
Qed.

Lemma tokensFrom_word (w rest cur : str) :
  NoSpaces w -> tokensFrom cur (w ++ rest) = tokensFrom (rev w ++ cur) rest.
Proof.
  intros H. revert cur. induction H as [|c w Hc _ IH]; intros cur;
    [reflexivity|].
  cbn [app tokensFrom rev]. rewrite Hc, IH, <- app_assoc. reflexivity.
Qed.

Lemma tokensFrom_boundary (cur rest : str) :
  cur <> [] -> isSpace (hd " "%char rest) = true ->
  tokensFrom cur rest = rev cur :: tokensFrom [] rest.
Proof.
  intros Hne Hr. destruct cur as [|k cur]; [congruence|].
  destruct rest as [|c t]; [reflexivity|].
  cbn [hd] in Hr. cbn [tokensFrom]. now rewrite Hr.
Qed.

(** A string has one list of tokens. *)
Lemma Tokens_unique (s : str) (ts : list str) : Tokens s ts -> ts = tokens s.
Proof.
  unfold tokens.
  induction 1 as [s Hs | ws w rest ts Hws Hne Hw Hrest Hts IH].
  - rewrite <- (app_nil_r s). now rewrite tokensFrom_spaces.
  - rewrite tokensFrom_spaces, tokensFrom_word by assumption.
    rewrite tokensFrom_boundary.
    + rewrite app_nil_r, rev_involutive. now f_equal.
    + rewrite app_nil_r. intros E. apply Hne.
      apply (f_equal (@rev ascii)) in E. now rewrite rev_involutive in E.
    + exact Hrest.
Qed.

Lemma truthyStr_rev (p : str) : truthyStr (rev p) = truthyStr p.
Proof.
  destruct p as [|k p]; [reflexivity|]. cbn [rev truthyStr].
  now destruct (rev p).
Qed.

(** Dropping the empty pieces of a split leaves the tokens. *)
Lemma split_filter (s : str) (inSep : bool) (piece : str) :
  (inSep = true -> piece = []) ->
  filter truthyStr (splitSpacesFrom inSep piece s) = tokensFrom piece s.
Proof.
  revert inSep piece. induction s as [|c t IH]; intros inSep piece Hp.
  - cbn [splitSpacesFrom tokensFrom filter]. rewrite truthyStr_rev.
    now destruct piece.
  - cbn [splitSpacesFrom tokensFrom]. destruct (isSpace c).
    + destruct inSep.
      * rewrite (Hp eq_refl). now apply IH.
      * cbn [filter]. rewrite truthyStr_rev, IH by reflexivity.
        now destruct piece.
    + apply IH. discriminate.
Qed.

Lemma endsClean_tail (c : ascii) (t : str) :
  endsClean (c :: t) = true -> endsClean t = true.
Proof. destruct t; [reflexivity | auto]. Qed.

(** A string that does not end in white space splits into pieces none of
    which is empty, once the scan holds a piece or is past a separator. *)
Lemma split_truthy (t : str) :
  endsClean t = true ->
  (t <> [] -> Forall (fun p => truthyStr p = true) (splitSpacesFrom true [] t))
  /\
  (forall piece, piece <> [] ->
     Forall (fun p => truthyStr p = true) (splitSpacesFrom false piece t)).
Proof.
  induction t as [|c t IH]; intros Hend.
  - split; [congruence|]. intros piece Hne. cbn [splitSpacesFrom].
    repeat constructor. rewrite truthyStr_rev. now apply truthyStr_true.
  - pose proof (endsClean_tail _ _ Hend) as Ht.
    destruct (IH Ht) as [IH1 IH2].
    assert (Hsp : isSpace c = true -> t <> []).
    { intros Hc ->. cbn in Hend. rewrite Hc in Hend. discriminate. }
    split.
    + intros _. cbn [splitSpacesFrom]. destruct (isSpace c).
      * apply IH1. auto.
      * apply IH2. discriminate.
    + intros piece Hne. cbn [splitSpacesFrom]. destruct (isSpace c).
      * constructor; [|apply IH1; auto].
        rewrite truthyStr_rev. now apply truthyStr_true.
      * apply IH2. discriminate.
Qed.

Lemma filter_all {A : Type} (p : A -> bool) (l : list A) :
  Forall (fun x => p x = true) l -> filter p l = l.
Proof.
  induction 1 as [|x l Hx _ IH]; [reflexivity|].
  cbn [filter]. now rewrite Hx, IH.
Qed.

Lemma dropSpaces_split (s : str) :
  exists ws, AllSpaces ws /\ s = ws ++ dropSpaces s.
Proof.
  induction s as [|c s [ws [Hws E]]]; [exists []; split; [constructor | reflexivity]|].
  cbn [dropSpaces]. destruct (isSpace c) eqn:Hc.
  - exists (c :: ws). split; [now constructor | cbn; now f_equal].
  - exists []. split; [constructor | reflexivity].
Qed.

Lemma dropSpaces_head (s : str) (c : ascii) (t : str) :
  dropSpaces s = c :: t -> isSpace c = false.
Proof.
  induction s as [|d s IH]; [discriminate|].
  cbn [dropSpaces]. destruct (isSpace d) eqn:Hd; [exact IH|].
  now intros [= <- _].
Qed.

Lemma endsClean_snoc (t : str) (c : ascii) :
  endsClean (t ++ [c]) = negb (isSpace c).
Proof.
  induction t as [|d t IH]; [reflexivity|].
  cbn [app]. destruct (t ++ [c]) eqn:E; [|exact IH].
  destruct t; discriminate.
Qed.

(** [trim] takes white space off both ends, and nothing else. *)
Lemma trim_shape (s : str) :
  exists ws1 ws2,
    AllSpaces ws1 /\ AllSpaces ws2 /\ s = ws1 ++ trim s ++ ws2.
Proof.
  destruct (dropSpaces_split s) as [ws1 [H1 E1]].
  destruct (dropSpaces_split (rev (dropSpaces s))) as [ws2 [H2 E2]].
  exists ws1, (rev ws2). split; [exact H1|]. split; [now apply Forall_rev|].
  unfold trim. rewrite <- rev_app_distr, <- E2, rev_involutive. exact E1.
Qed.

Lemma trim_clean (s : str) :
  endsClean (trim s) = true /\
  forall c t, trim s = c :: t -> isSpace c = false.
Proof.
  destruct (dropSpaces_split (rev (dropSpaces s))) as [ws [Hws E]].
  unfold trim. split.
  - destruct (dropSpaces (rev (dropSpaces s))) as [|c e] eqn:He;
      [reflexivity|].
    cbn [rev]. rewrite endsClean_snoc.
    now rewrite (dropSpaces_head _ _ _ He).
  - intros c t Ht.
    apply (f_equal (@rev ascii)) in E.
    rewrite rev_involutive, rev_app_distr, Ht in E.
    cbn [app] in E. now apply (dropSpaces_head s c _ E).
Qed.

Lemma tokensFrom_only_spaces (ws : str) :
  AllSpaces ws -> tokensFrom [] ws = [].
Proof.
  intros H. rewrite <- (app_nil_r ws). now rewrite tokensFrom_spaces.
Qed.

Lemma tokensFrom_trailing (t ws cur : str) :
  AllSpaces ws -> tokensFrom cur (t ++ ws) = tokensFrom cur t.
Proof.
  intros Hws. revert cur. induction t as [|c t IH]; intros cur.
  - cbn [app]. destruct Hws as [|d ws Hd Hws]; [reflexivity|].
    cbn [tokensFrom]. rewrite Hd, (tokensFrom_only_spaces ws Hws).
    now destruct cur.
  - cbn [app tokensFrom]. now rewrite !IH.
Qed.

Lemma tokens_trim (s : str) : tokens (trim s) = tokens s.
Proof.
  destruct (trim_shape s) as (ws1 & ws2 & H1 & H2 & E).
  unfold tokens. rewrite E at 2.
  now rewrite tokensFrom_spaces, tokensFrom_trailing.
Qed.

Lemma splitSpacesFrom_nonempty (inSep : bool) (piece s : str) :
  splitSpacesFrom inSep piece s <> [].
Proof.
  revert inSep piece. induction s as [|c t IH]; intros inSep piece;
    cbn [splitSpacesFrom]; [discriminate|].
  destruct (isSpace c); [destruct inSep; [apply IH | discriminate] | apply IH].
Qed.

(** Splitting the trimmed name yields its tokens, or one empty piece when
    the name has none. *)
Lemma splitSpaces_trim (s : str) :
  splitSpaces (trim s) =
  match tokens s with
  | [] => [[]]
  | ts => ts
  end.
Proof.
  rewrite <- tokens_trim. destruct (trim_clean s) as [Hend Hhead].
  destruct (trim s) as [|c t] eqn:E; [reflexivity|].
  pose proof (Hhead c t eq_refl) as Hc.
  assert (Hall : Forall (fun p => truthyStr p = true) (splitSpaces (c :: t))).
  { unfold splitSpaces. cbn [splitSpacesFrom]. rewrite Hc.
    apply split_truthy; [now apply endsClean_tail in Hend | discriminate]. }
  assert (Heq : splitSpaces (c :: t) = tokens (c :: t)).
  { rewrite <- (filter_all _ _ Hall). apply split_filter. discriminate. }
  rewrite <- Heq.
  destruct (splitSpaces (c :: t)) eqn:Es; [|reflexivity].
  now apply splitSpacesFrom_nonempty in Es.
Qed.

Lemma splitName_spec (full : option str) :
  splitName full =
  (hd [] (tokens (orEmpty full)),
   join (lit " ") (tl (tokens (orEmpty full)))).
Proof.
  destruct full as [full|]; [|reflexivity].
  cbn [splitName orEmpty]. destruct (truthyStr full) eqn:Ht.
  - rewrite splitSpaces_trim. now destruct (tokens full).
  - apply truthyStr_false in Ht. now subst.
Qed.

(** C9.  The normalizer yields, for every raw record, the record whose
    first name is the first token of the name, whose last name is the other
    tokens joined by single spaces (both empty when the name has no token or
    is missing), whose email is that of the raw record or the empty string,
    and whose department is the nested company name or the empty string. *)
Theorem normalizer_spec (u : Raw.t) :
  exists ts,
    Tokens (orEmpty (Raw.name u)) ts /\
    (forall ts', Tokens (orEmpty (Raw.name u)) ts' -> ts' = ts) /\
    makeUserFromAPI u =
      User.mk (Raw.id u) (hd [] ts) (join (lit " ") (tl ts))
              (orEmpty (Raw.email u)) (companyName u).
Proof.
  exists (tokens (orEmpty (Raw.name u))).
  split; [apply tokens_Tokens|].
  split; [intros ts'; apply Tokens_unique|].
  unfold makeUserFromAPI. rewrite splitName_spec. reflexivity.
Qed.

Lemma normalizer_examples :
  makeUserFromAPI
    (Raw.mk 4 (Some (lit "  Mrs.  Dennis   Schulist ")) None (Some None))
  = User.mk 4 (lit "Mrs.") (lit "Dennis Schulist") [] [] /\
  makeUserFromAPI (Raw.mk 9 None (Some (lit "x@y.z")) None)
  = User.mk 9 [] [] (lit "x@y.z") [].
Proof. split; reflexivity. Qed.

(** ** Sessions *)

Lemma recompute_wellformed (st : State) :
  1 <= page st -> sortDir st = 1 \/ sortDir st = -1 ->
  WellFormed (recompute st).
Proof.
  intros Hp Hd. unfold WellFormed. cbn [recompute page totalPages sortDir].
  split; [|exact Hd].
  set (total := Z.max 1 _). assert (1 <= total) by (unfold total; lia).
  destruct (Z.ltb_spec total (page st)); lia.
Qed.

Lemma submitForm_state (remote : Remote) (f : Form) (a : App) :
  state (submitForm remote f a) = state a \/
  exists us, state (submitForm remote f a) = recompute (withUsers (state a) us).
Proof.
  rewrite submitForm_unfold; cbv zeta.
  destruct (_ || _); [now left|].
  destruct (negb (validateEmail _)); [now left|].
  cbn [hideFormError editingId].
  destruct (editingTarget (editingId a)) as [eid|]; unfold send;
    (destruct (remote _) as [|status body]; [now left|]);
    (destruct (negb (ok status)); [now left|]).
  - right. eexists. reflexivity.
  - destruct body; [now left | |]; right; eexists; reflexivity.
Qed.

Lemma loadUsers_state (remote : Remote) (a : App) :
  state (loadUsers remote a) = state a \/
  exists us, state (loadUsers remote a) = recompute (withUsers (state a) us).
Proof.
  unfold loadUsers, send.
  destruct (remote loadRequest) as [|status body]; [now left|].
  destruct (negb (ok status)); [now left|].
  destruct body; [now left | now left |]. right. eexists. reflexivity.
Qed.

Lemma deleteUser_state (remote : Remote) (confirmed : bool) (id : Z) (a : App) :
  state (deleteUser remote confirmed id a) = state a \/
  exists us,
    state (deleteUser remote confirmed id a) = recompute (withUsers (state a) us).
Proof.
  unfold deleteUser, send. destruct confirmed; [|now left]. cbn [negb].
  destruct (remote (deleteRequest id)) as [|status body]; [now left|].
  destruct (_ && _); [now left|]. right. eexists. reflexivity.
Qed.

(** Every handler keeps the state well formed. *)
Lemma handle_wellformed (remote : Remote) (ev : Event) (a : App) :
  WellFormed (state a) -> WellFormed (state (handle remote ev a)).
Proof.
  intros Hw. pose proof Hw as (Hp & Hd).
  destruct ev as [|f|id| | |confirmed id|key| | |n|term|flt|];
    cbn [handle]; try exact Hw.
  - destruct (loadUsers_state remote a) as [-> | [us ->]]; [exact Hw|].
    now apply recompute_wellformed.
  - destruct (submitForm_state remote f a) as [-> | [us ->]]; [exact Hw|].
    now apply recompute_wellformed.
  - destruct (deleteUser_state remote confirmed id a) as [-> | [us ->]];
      [exact Hw|].
    now apply recompute_wellformed.
  - unfold clickHeader. cbn [withState state fst applyAllFilters].
    destruct (match sortKey (state a) with Some _ => _ | None => _ end);
      apply recompute_wellformed; cbn [page sortDir]; auto; lia.
  - unfold WellFormed. cbn. repeat split; auto; lia.
  - unfold WellFormed. cbn. repeat split; auto; lia.
  - apply recompute_wellformed; cbn [page sortDir]; auto; lia.
  - apply recompute_wellformed; cbn [page sortDir]; auto; lia.
  - apply recompute_wellformed; cbn [page sortDir]; auto; lia.
  - apply recompute_wellformed; cbn [page sortDir]; auto; lia.
Qed.

(** The states of a session are well formed: the provisos of the page
    window and of the sort hold wherever the application gets. *)
Lemma run_wellformed (steps : list (Remote * Event)) (page0 : View) :
  WellFormed (state (run steps (initialApp page0))).
Proof.
  unfold run.
  assert (H0 : WellFormed (state (initialApp page0))).
  { unfold WellFormed. cbn. repeat split; auto; lia. }
  revert H0. generalize (initialApp page0) as a.
  induction steps as [|[remote ev] steps IH]; intros a Ha; [exact Ha|].
  cbn [fold_left fst snd]. apply IH. now apply handle_wellformed.
Qed.

(** ** Scenarios of the specification *)

(** Twelve records and a page size of 10: page 1 shows ten records of two
    pages, and the next page shows the other two. *)
Lemma twelve_records_two_pages :
  let a := withState (appWith twelveUsers None)
                     (applyAllFilters (withUsers initialState twelveUsers)) in
  totalPages (state a) = 2 /\
  map User.id (pageItemsOf (state a)) = [1; 2; 3; 4; 5; 6; 7; 8; 9; 10] /\
  map User.id (pageItemsOf (state (clickNext a))) = [11; 12] /\
  pageInfo (view (clickNext a)) = (2, 2).
Proof. repeat split; reflexivity. Qed.

(** The department filter "Widget" with the search term "jane" keeps the
    records that match both, whatever the letter case. *)
Lemma widget_and_jane :
  let st := mkState [jane; janet; john] [] 1 10 1 None 1
                    (Filters.mk [] [] [] (lit "Widget")) (lit " jane ") in
  filtered (fst (applyAllFilters st)) = [jane].
Proof. reflexivity. Qed.

(** After a successful update of the department of record 3, a sort by
    department places the record by its new value. *)
Lemma update_then_sort :
  let a := appWith [user7; user3] (Some 3) in
  let f := mkForm (lit "Clementine") (lit "Bauch") (lit "Nathan@yesenia.net")
                  (lit "Abbott") in
  let a' := clickHeader FDepartment (submitForm placeholderRemote f a) in
  map User.id (filtered (state a')) = [3; 7] /\
  map User.id (filtered (state (clickHeader FDepartment a))) = [7; 3].
Proof. split; reflexivity. Qed.

(** A record whose identifier is 0 cannot be updated: [editingId] is then
    falsy, and the submission takes the create branch. *)
Lemma edit_of_id_zero_creates :
  let zero := User.mk 0 (lit "Zed") [] (lit "zed@zero.org") [] in
  let a := openEditModal (Some 0) (appWith [zero] None) in
  map User.id (users (state (submitForm placeholderRemote sampleForm a)))
  = [11; 0].
Proof. reflexivity. Qed.

(** * Further properties of the code *)

(** ** Escaping *)

Ltac split_escape c :=
  unfold escapeChar;
  destruct (Ascii.eqb_spec c "&"); [|
  destruct (Ascii.eqb_spec c "<"); [|
  destruct (Ascii.eqb_spec c ">"); [|
  destruct (Ascii.eqb_spec c "034"); [|
  destruct (Ascii.eqb_spec c "'")]]]].

Lemma escapeChar_clean (c : ascii) :
  Forall (fun d => isMarkup d = false) (escapeChar c).
Proof.
  split_escape c; try (repeat constructor).
  unfold isMarkup.
  repeat match goal with
         | H : c <> _ |- _ => apply Ascii.eqb_neq in H; rewrite H; clear H
         end.
  reflexivity.
Qed.

Lemma escapeChar_plain (c : ascii) :
  isMarkup c = false -> c <> "&"%char -> escapeChar c = [c].
Proof.
  unfold isMarkup. intros Hm Hc.
  apply orb_false_iff in Hm. destruct Hm as [Hm H4].
  apply orb_false_iff in Hm. destruct Hm as [Hm H3].
  apply orb_false_iff in Hm. destruct Hm as [H1 H2].
  apply Ascii.eqb_neq in Hc.
  unfold escapeChar. now rewrite Hc, H1, H2, H3, H4.
Qed.

Lemma escapeHtml_clean (s : str) :
  Forall (fun c => isMarkup c = false) (escapeHtml s).
Proof.
  induction s as [|c s IH]; [constructor|].
  cbn [escapeHtml flat_map]. apply Forall_app.
  split; [apply escapeChar_clean | exact IH].
Qed.

(** X1.  The escaped text holds none of the characters that open or close
    markup or an attribute value, so no cell of a table row does, whatever the
    record; and a text without those characters and without an ampersand is
    returned as it is. *)
Theorem escapeHtml_no_markup (s : str) (u : User.t) :
  Forall (fun c => isMarkup c = false) (escapeHtml s) /\
  Forall (Forall (fun c => isMarkup c = false)) (rowCells u) /\
  (Forall (fun c => isMarkup c = false /\ c <> "&"%char) s ->
   escapeHtml s = s).
Proof.
  split; [apply escapeHtml_clean|]. split.
  - unfold rowCells. repeat constructor; apply escapeHtml_clean.
  - induction 1 as [|c s [Hm Hc] _ IH]; [reflexivity|].
    cbn [escapeHtml flat_map]. rewrite (escapeChar_plain c Hm Hc).
    fold (escapeHtml s). now rewrite IH.
Qed.

Lemma escapeHtml_no_markup_witness :
  escapeHtml (lit "Romaguera-Crona") = lit "Romaguera-Crona".
Proof.
  destruct (escapeHtml_no_markup (lit "Romaguera-Crona") user3) as (_ & _ & H).
  apply H. repeat constructor; discriminate.
Defined.

(** X2.  Escaping loses nothing: two texts with the same escaped form are
    the same text. *)
Theorem escapeHtml_injective (a b : str) :
  escapeHtml a = escapeHtml b -> a = b.
Proof.
  revert b. induction a as [|x a IH]; intros [|y b] H.
  - reflexivity.
  - exfalso. cbn [escapeHtml flat_map] in H. revert H.
    split_escape y; discriminate.
  - exfalso. cbn [escapeHtml flat_map] in H. revert H.
    split_escape x; discriminate.
  - cbn [escapeHtml flat_map] in H.
    fold (escapeHtml a) in H. fold (escapeHtml b) in H.
    revert H. split_escape x; split_escape y; subst; cbn;
      intros H; try discriminate H;
      try (injection H as H; f_equal; now apply IH);
      try (injection H as E H; congruence).
    injection H as -> H. f_equal. now apply IH.
Qed.

Lemma escapeHtml_injective_witness :
  lit "a<b & c" = lit "a<b & c".
Proof.
  apply (escapeHtml_injective (lit "a<b & c") (lit "a<b & c")).
  reflexivity.
Defined.

(** ** Pages *)

Lemma slice_nat {A : Type} (l : list A) (i j : nat) :
  (i <= j)%nat ->
  slice l (Z.of_nat i) (Z.of_nat j) = firstn (j - i) (skipn i l).
Proof.
  intros Hij. unfold slice, relIndex.
  destruct (Z.ltb_spec (Z.of_nat i) 0) as [H|_]; [lia|].
  destruct (Z.ltb_spec (Z.of_nat j) 0) as [H|_]; [lia|].
  destruct (Nat.le_gt_cases i (length l)) as [Hi | Hi].
  - rewrite (Z.min_l (Z.of_nat i)) by lia. rewrite Nat2Z.id.
    destruct (Nat.le_gt_cases j (length l)) as [Hj | Hj].
    + rewrite Z.min_l by lia. f_equal. lia.
    + rewrite Z.min_r by lia.
      rewrite !firstn_all2; [reflexivity | |]; rewrite length_skipn; lia.
  - rewrite !Z.min_r by lia. rewrite Nat2Z.id.
    rewrite !skipn_all2 by lia. now rewrite !firstn_nil.
Qed.

(** The items of page [k] are the [perPage] items after the first
    [(k - 1) * perPage]. *)
Lemma pageAt_chunk (st : State) (k : nat) :
  1 <= perPage st -> (1 <= k)%nat ->
  pageAt st (Z.of_nat k) =
  firstn (Z.to_nat (perPage st))
         (skipn ((k - 1) * Z.to_nat (perPage st)) (filtered st)).
Proof.
  intros Hp Hk. unfold pageAt, pageItemsOf. cbn [withPage page perPage filtered].
  set (p := Z.to_nat (perPage st)).
  replace ((Z.of_nat k - 1) * perPage st) with (Z.of_nat ((k - 1) * p))
    by (unfold p; nia).
  replace (Z.of_nat ((k - 1) * p) + perPage st)
    with (Z.of_nat ((k - 1) * p + p)) by (unfold p; lia).
  rewrite slice_nat by lia. f_equal. lia.
Qed.

Lemma chunks_concat {A : Type} (l : list A) (p m : nat) :
  concat (map (fun i => firstn p (skipn ((i - 1) * p) l)) (seq 1 m))
  = firstn (m * p) l.
Proof.
  induction m as [|m IH]; [reflexivity|].
  rewrite seq_S, map_app, concat_app, IH. cbn [map concat].
  rewrite app_nil_r.
  replace (1 + m - 1)%nat with m by lia.
  rewrite <- (firstn_skipn (m * p) (firstn (S m * p) l)).
  rewrite firstn_firstn, Nat.min_l by lia.
  f_equal. rewrite firstn_skipn_comm. f_equal. f_equal. lia.
Qed.

Lemma pages_cover (n p : Z) :
  1 <= p -> n <= Z.max 1 (ceilDiv n p) * p.
Proof.
  intros Hp. pose proof (ceilDiv_ceiling n p Hp) as [_ H]. nia.
Qed.

(** X3.  The pages partition the filtered list: with a page size of at
    least 1, the pages 1 to [totalPages] of a state whose derived fields are
    up to date, one after the other, are the filtered list. *)
Theorem pages_partition (st : State) :
  1 <= perPage st -> Derived st ->
  concat (allPages st) = filtered st.
Proof.
  intros Hp [_ Ht]. unfold allPages.
  rewrite (map_ext_in _ (fun i => firstn (Z.to_nat (perPage st))
                           (skipn ((i - 1) * Z.to_nat (perPage st))
                                  (filtered st)))).
  - rewrite chunks_concat. apply firstn_all2.
    pose proof (pages_cover (Z.of_nat (length (filtered st))) (perPage st) Hp).
    rewrite <- Ht in H. nia.
  - intros i Hi. apply in_seq in Hi. apply pageAt_chunk; [exact Hp | lia].
Qed.

Lemma recompute_derived (st : State) : Derived (recompute st).
Proof. split; reflexivity. Qed.

Lemma pages_partition_witness :
  let st := fst (applyAllFilters (withUsers initialState twelveUsers)) in
  concat (allPages st) = filtered st.
Proof.
  apply (pages_partition
           (fst (applyAllFilters (withUsers initialState twelveUsers)))).
  - simpl. lia.
  - apply recompute_derived.
Defined.

Lemma pageItems_length (st : State) :
  1 <= perPage st -> 1 <= page st ->
  Z.of_nat (length (pageItemsOf st)) =
  Z.max 0 (Z.min (perPage st)
                 (Z.of_nat (length (filtered st)) - (page st - 1) * perPage st)).
Proof.
  intros Hp Hk.
  assert (E : pageItemsOf st = pageAt st (Z.of_nat (Z.to_nat (page st)))).
  { unfold pageAt. rewrite Z2Nat.id by lia. now destruct st. }
  rewrite E, pageAt_chunk by lia.
  rewrite length_firstn, length_skipn. nia.
Qed.

(** X4.  In a state whose derived fields are up to date, with a page size of
    at least 1 and the page between 1 and [totalPages], the page shown holds
    the smaller of [perPage] and the number of filtered records left from its
    start; it is empty only when no record is filtered, and the placeholder
    row is shown in that case and no other. *)
Theorem page_shows_records (st : State) :
  1 <= perPage st -> Derived st -> 1 <= page st <= totalPages st ->
  let n := Z.of_nat (length (filtered st)) in
  Z.of_nat (length (pageItemsOf st)) =
    Z.min (perPage st) (n - (page st - 1) * perPage st) /\
  (pageItemsOf st = [] <-> filtered st = []) /\
  (rows (renderTable st) = [NoUsersFound] <-> filtered st = []) /\
  (filtered st <> [] -> rows (renderTable st) = map UserRow (pageItemsOf st)).
Proof.
  intros Hp [_ Ht] Hk. cbv zeta.
  pose proof (pageItems_length st Hp ltac:(lia)) as Hlen.
  pose proof (ceilDiv_ceiling (Z.of_nat (length (filtered st))) (perPage st) Hp)
    as [Hc1 Hc2].
  assert (Hstart : Z.of_nat (length (filtered st)) = 0 \/
                   (page st - 1) * perPage st < Z.of_nat (length (filtered st))).
  { destruct (filtered st) as [|u l]; [now left | right].
    cbn [length] in *. nia. }
  assert (Hfirst : Z.of_nat (length (filtered st)) = 0 -> page st = 1).
  { intros E. rewrite E in *. unfold ceilDiv in Ht. cbn in Ht. lia. }
  assert (Hempty : pageItemsOf st = [] <-> filtered st = []).
  { split; intros E.
    - apply length_zero_iff_nil. rewrite E in Hlen. cbn [length] in Hlen.
      destruct Hstart as [H|H]; lia.
    - apply length_zero_iff_nil. rewrite E in *. cbn [length] in *. lia. }
  split; [|split; [exact Hempty | split]].
  - rewrite Hlen. destruct Hstart as [H|H]; [|lia].
    rewrite (Hfirst H), H. lia.
  - rewrite <- Hempty. cbn [renderTable rows].
    destruct (pageItemsOf st) as [|u l]; split; try reflexivity; discriminate.
  - intros Hne. cbn [renderTable rows].
    destruct (pageItemsOf st) as [|u l]; [|reflexivity].
    exfalso. apply Hne. now apply Hempty.
Qed.

Lemma page_shows_records_witness :
  let st := withPage (fst (applyAllFilters (withUsers initialState twelveUsers)))
                     2 in
  Z.of_nat (length (pageItemsOf st)) = 2.
Proof.
  cbv zeta.
  destruct (page_shows_records
              (withPage (fst (applyAllFilters
                                (withUsers initialState twelveUsers))) 2)
              ltac:(vm_compute; discriminate) (conj eq_refl eq_refl)
              ltac:(vm_compute; split; discriminate))
    as [H _].
  rewrite H. reflexivity.
Defined.

Lemma page_start (st : State) :
  1 <= perPage st -> Derived st -> 1 <= page st <= totalPages st ->
  (length (filtered st) = 0%nat /\ page st = 1) \/
  (page st - 1) * perPage st < Z.of_nat (length (filtered st)).
Proof.
  intros Hp [_ Ht] Hk.
  pose proof (ceilDiv_ceiling (Z.of_nat (length (filtered st))) (perPage st) Hp)
    as [Hc1 Hc2].
  destruct (filtered st) as [|u l]; [left | right].
  - split; [reflexivity|]. unfold ceilDiv in Ht. cbn in Ht. lia.
  - cbn [length] in *. nia.
Qed.

(** X5.  The line under the table counts the rows shown: under the
    provisos of X4 it reads 0 - 0 of 0 when nothing is filtered, and otherwise
    from the position of the first row of the page to that of its last row, of
    the number of filtered records; the two positions are as far apart as the
    page has rows. *)
Theorem rows_info_counts (st : State) :
  1 <= perPage st -> Derived st -> 1 <= page st <= totalPages st ->
  let n := Z.of_nat (length (filtered st)) in
  let start := (page st - 1) * perPage st in
  rowsInfo (renderTable st) =
    (if n =? 0 then (0, 0, 0)
     else (start + 1, Z.min n (page st * perPage st), n)) /\
  (filtered st <> [] ->
   snd (fst (rowsInfo (renderTable st))) - fst (fst (rowsInfo (renderTable st)))
   + 1 = Z.of_nat (length (pageItemsOf st))).
Proof.
  intros Hp Hd Hk. cbv zeta.
  pose proof (pageItems_length st Hp ltac:(lia)) as Hlen.
  cbn [renderTable rowsInfo fst snd]. rewrite Hlen.
  destruct (page_start st Hp Hd Hk) as [[H0 H1] | Hlt].
  - rewrite H0, H1. cbn. split.
    + f_equal. f_equal. lia.
    + intros Hne. apply length_zero_iff_nil in H0. contradiction.
  - assert (0 <= (page st - 1) * perPage st) by nia.
    destruct (Z.eqb_spec (Z.of_nat (length (filtered st))) 0) as [E|E];
      [lia|].
    split; [|intros _; lia].
    f_equal. f_equal; lia.
Qed.

Lemma rows_info_counts_witness :
  rowsInfo (renderTable
              (withPage (fst (applyAllFilters
                                (withUsers initialState twelveUsers))) 2))
  = (11, 12, 12).
Proof.
  destruct (rows_info_counts
              (withPage (fst (applyAllFilters
                                (withUsers initialState twelveUsers))) 2)
              ltac:(vm_compute; discriminate) (conj eq_refl eq_refl)
              ltac:(vm_compute; split; discriminate))
    as [H _].
  rewrite H. reflexivity.
Defined.

(** ** Moving between pages *)

Lemma state_eta (st : State) :
  mkState (users st) (filtered st) (page st) (perPage st) (totalPages st)
          (sortKey st) (sortDir st) (filters st) (search st) = st.
Proof. now destruct st. Qed.

Lemma withPage_same (st : State) (p : Z) : p = page st -> withPage st p = st.
Proof. intros ->. apply state_eta. Qed.

(** X6.  With the page between 1 and [totalPages]: Next on the last page
    and Prev on the first page leave the state as it is; anywhere else Next
    moves one page forward and Prev one page back, each undoing the other; and
    neither touches anything but the page. *)
Theorem prev_next_navigation (a : App) :
  1 <= page (state a) <= totalPages (state a) ->
  let st := state a in
  (page st = totalPages st -> state (clickNext a) = st) /\
  (page st = 1 -> state (clickPrev a) = st) /\
  (page st < totalPages st ->
   page (state (clickNext a)) = page st + 1 /\
   state (clickPrev (clickNext a)) = st) /\
  (1 < page st ->
   page (state (clickPrev a)) = page st - 1 /\
   state (clickNext (clickPrev a)) = st) /\
  withPage (state (clickNext a)) (page st) = st /\
  withPage (state (clickPrev a)) (page st) = st.
Proof.
  intros Hk. cbv zeta. unfold clickNext, clickPrev, withRender, withState.
  cbn [state fst]. split; [|split; [|split; [|split; [|split]]]].
  - intros E. apply withPage_same. lia.
  - intros E. apply withPage_same. lia.
  - intros Hlt. split; [cbn [withPage page]; lia|].
    unfold withPage. cbn. etransitivity; [|apply state_eta].
    f_equal. lia.
  - intros Hgt. split; [cbn [withPage page]; lia|].
    unfold withPage. cbn. etransitivity; [|apply state_eta].
    f_equal. lia.
  - unfold withPage. cbn. apply state_eta.
  - unfold withPage. cbn. apply state_eta.
Qed.

Lemma prev_next_navigation_witness :
  let a := withRender (appWith twelveUsers None)
                      (fst (applyAllFilters (withUsers initialState twelveUsers))) in
  state (clickPrev (clickNext a)) = state a.
Proof.
  cbv zeta.
  destruct (prev_next_navigation
              (withRender (appWith twelveUsers None)
                 (fst (applyAllFilters (withUsers initialState twelveUsers))))
              ltac:(vm_compute; split; discriminate))
    as (_ & _ & H & _).
  apply H. vm_compute. reflexivity.
Defined.

(** ** Sorting by a column *)

Lemma clickHeader_same (key : Field) (a : App) :
  sortKey (state a) = Some key ->
  state (clickHeader key a) =
  recompute (mkState (users (state a)) (filtered (state a)) (page (state a))
                     (perPage (state a)) (totalPages (state a))
                     (sortKey (state a)) (- sortDir (state a))
                     (filters (state a)) (search (state a))).
Proof.
  intros Hk. unfold clickHeader. cbn [withState state fst applyAllFilters].
  rewrite Hk. now destruct key.
Qed.

Lemma clickHeader_other (key : Field) (a : App) :
  sortKey (state a) <> Some key ->
  state (clickHeader key a) =
  recompute (mkState (users (state a)) (filtered (state a)) (page (state a))
                     (perPage (state a)) (totalPages (state a))
                     (Some key) 1
                     (filters (state a)) (search (state a))).
Proof.
  intros Hk. unfold clickHeader. cbn [withState state fst applyAllFilters].
  destruct (sortKey (state a)) as [[]|]; destruct key;
    try reflexivity; congruence.
Qed.

Lemma sortStep_length (st : State) (l : list User.t) :
  length (sortStep st l) = length l.
Proof. symmetry. apply Permutation_length, sortStep_perm. Qed.

(** X7.  A click on the header of the current sort column flips the
    direction and keeps the column, and a second click on it brings back the
    state the pipeline gives for the inputs before the first; a click on
    another header makes it the sort column, ascending. *)
Theorem header_click_toggles (key : Field) (a : App) :
  let st := state a in
  (sortKey st = Some key ->
   sortKey (state (clickHeader key a)) = Some key /\
   sortDir (state (clickHeader key a)) = - sortDir st /\
   state (clickHeader key (clickHeader key a)) = recompute st) /\
  (sortKey st <> Some key ->
   sortKey (state (clickHeader key a)) = Some key /\
   sortDir (state (clickHeader key a)) = 1).
Proof.
  cbv zeta. split.
  - intros Hk. pose proof (clickHeader_same key a Hk) as E1.
    split; [rewrite E1; exact Hk|]. split; [now rewrite E1|].
    rewrite (clickHeader_same key (clickHeader key a)) by (rewrite E1; exact Hk).
    rewrite E1. unfold recompute.
    cbn [users filtered page perPage totalPages sortKey sortDir filters search].
    unfold filterStep, sortStep.
    cbn [users filtered page perPage totalPages sortKey sortDir filters search].
    rewrite Hk, Z.opp_involutive, !sortBy_length.
    set (total := Z.max 1 _). f_equal.
    assert (1 <= total) by (unfold total; lia).
    destruct (Z.ltb_spec total (page (state a))).
    + destruct (Z.ltb_spec total 1); [lia | reflexivity].
    + destruct (Z.ltb_spec total (page (state a))); [lia | reflexivity].
  - intros Hk. rewrite (clickHeader_other key a Hk). split; reflexivity.
Qed.

Lemma header_click_toggles_witness :
  let a := appWith [user7; user3] None in
  sortKey (state (clickHeader FLast a)) = Some FLast /\
  sortDir (state (clickHeader FLast a)) = 1.
Proof.
  cbv zeta.
  destruct (header_click_toggles FLast (appWith [user7; user3] None))
    as [_ H].
  apply H. discriminate.
Defined.

(** X8.  The comparator handed to [sort] is consistent: swapping its
    arguments negates its result, a record compares equal to itself, and for a
    direction other than 0 the result is 0 exactly for two records of the same
    key. *)
Theorem comparator_consistent (key : Field) (dir : Z) (a b : User.t) :
  compareUsers key dir b a = - compareUsers key dir a b /\
  compareUsers key dir a a = 0 /\
  (dir <> 0 -> (compareUsers key dir a b = 0 <-> sameKey key a b = true)).
Proof.
  rewrite !compareUsers_cases, keyLtb_irrefl, sameKey_spec.
  destruct (keyLtb key a b) eqn:Hab, (keyLtb key b a) eqn:Hba.
  - rewrite (keyLtb_asym _ _ _ Hab) in Hba. discriminate.
  - repeat split; try lia; intros; try lia; intuition discriminate.
  - repeat split; try lia; intros; try lia; intuition discriminate.
  - repeat split; try lia; intros; auto.
Qed.

Lemma comparator_consistent_witness :
  compareUsers FFirst 1 user3 user7 = 0 <-> sameKey FFirst user3 user7 = true.
Proof.
  destruct (comparator_consistent FFirst 1 user3 user7) as (_ & _ & H).
  apply H. discriminate.
Defined.

Lemma sorted_is_own_stable_sort (key : Field) (dir : Z) (l : list User.t) :
  StronglySorted (InOrder key dir) l -> StableSortOf key dir l l.
Proof. intros H. repeat split; [reflexivity | exact H]. Qed.

(** X9.  Sorting a list that is already in order for the sort column and
    direction changes nothing; in particular sorting twice is sorting once. *)
Theorem sort_fixes_sorted (st : State) (key : Field) (l : list User.t) :
  sortKey st = Some key -> sortDir st = 1 \/ sortDir st = -1 ->
  (StronglySorted (InOrder key (sortDir st)) l -> sortStep st l = l) /\
  sortStep st (sortStep st l) = sortStep st l.
Proof.
  intros Hk Hd. unfold sortStep. rewrite Hk.
  assert (Hfix : forall l', StronglySorted (InOrder key (sortDir st)) l' ->
                            sortBy (compareUsers key (sortDir st)) l' = l').
  { intros l' Hs.
    apply (StableSortOf_unique key (sortDir st) l').
    - now apply sortStep_stable_sort.
    - now apply sorted_is_own_stable_sort. }
  split; [apply Hfix|].
  apply Hfix. now apply sortStep_stable_sort.
Qed.

Lemma sort_fixes_sorted_witness :
  let st := mkState [] [] 1 10 1 (Some FId) 1 (Filters.mk [] [] [] []) [] in
  sortStep st (sortStep st [user7; user3]) = sortStep st [user7; user3].
Proof.
  cbv zeta.
  destruct (sort_fixes_sorted
              (mkState [] [] 1 10 1 (Some FId) 1 (Filters.mk [] [] [] []) [])
              FId [user7; user3] eq_refl (or_introl eq_refl)) as [_ H].
  exact H.
Defined.

Lemma StronglySorted_app {A : Type} (R : A -> A -> Prop) (l1 l2 : list A) :
  StronglySorted R l1 -> StronglySorted R l2 ->
  (forall a b, In a l1 -> In b l2 -> R a b) ->
  StronglySorted R (l1 ++ l2).
Proof.
  intros H1 H2 H. induction H1 as [|x t Hs IH Hx]; [exact H2|].
  cbn [app]. constructor.
  - apply IH. intros a b Ha Hb. apply H; [now right | exact Hb].
  - apply Forall_app. split; [exact Hx|].
    apply Forall_forall. intros b Hb. apply H; [now left | exact Hb].
Qed.

Lemma StronglySorted_rev {A : Type} (R : A -> A -> Prop) (l : list A) :
  StronglySorted R l -> StronglySorted (fun a b => R b a) (rev l).
Proof.
  induction 1 as [|x t Hs IH Hx]; [constructor|].
  cbn [rev]. apply StronglySorted_app; [exact IH | repeat constructor|].
  intros a b Ha [<- | []]. apply in_rev in Ha.
  rewrite Forall_forall in Hx. now apply Hx.
Qed.

Lemma InOrder_flip (key : Field) (a b : User.t) :
  InOrder key (-1) a b <-> InOrder key 1 b a.
Proof. unfold InOrder. cbn. tauto. Qed.

Lemma distinct_class_small (key : Field) (r : User.t) (l : list User.t) :
  ForallOrdPairs (fun a b => sameKey key a b = false) l ->
  (length (filter (sameKey key r) l) <= 1)%nat.
Proof.
  induction 1 as [|x l Hx _ IH]; [cbn; lia|].
  cbn [filter]. destruct (sameKey key r x) eqn:Hr; [|exact IH].
  assert (E : filter (sameKey key r) l = []).
  { destruct (filter (sameKey key r) l) as [|y t] eqn:Ef; [reflexivity|].
    assert (Hy : In y (filter (sameKey key r) l)) by (rewrite Ef; now left).
    apply filter_In in Hy. destruct Hy as [Hin Hry].
    rewrite Forall_forall in Hx. specialize (Hx y Hin).
    rewrite (sameKey_trans key x r y) in Hx;
      [discriminate | now apply sameKey_sym | exact Hry]. }
  rewrite E. cbn. lia.
Qed.

Lemma rev_small {A : Type} (l : list A) : (length l <= 1)%nat -> rev l = l.
Proof. destruct l as [|x [|y t]]; cbn; intros; try reflexivity; lia. Qed.

Lemma filter_rev {A : Type} (p : A -> bool) (l : list A) :
  filter p (rev l) = rev (filter p l).
Proof.
  induction l as [|x l IH]; [reflexivity|].
  cbn [rev filter]. rewrite filter_app, IH. cbn [filter].
  destruct (p x); [reflexivity | now rewrite app_nil_r].
Qed.

(** X10.  When no two records of the list share a key, the descending sort
    is the ascending sort reversed.  (With equal keys it is not: the records
    of a class keep their order in both directions.) *)
Theorem descending_is_reverse (key : Field) (l : list User.t) :
  ForallOrdPairs (fun a b => sameKey key a b = false) l ->
  sortBy (compareUsers key (-1)) l = rev (sortBy (compareUsers key 1) l).
Proof.
  intros Hd.
  apply (StableSortOf_unique key (-1) l).
  - apply sortStep_stable_sort. now right.
  - destruct (sortStep_stable_sort key 1 l (or_introl eq_refl))
      as (Hp & Hs & Hf).
    repeat split.
    + rewrite Hp at 1. apply Permutation_rev.
    + apply StronglySorted_rev in Hs.
      clear - Hs. induction Hs as [|x t _ IH Hx]; constructor; [exact IH|].
      eapply Forall_impl; [|exact Hx]. intros y Hy. now apply InOrder_flip.
    + intros r. rewrite filter_rev, Hf.
      apply rev_small. now apply distinct_class_small.
Qed.

Lemma descending_is_reverse_witness :
  sortBy (compareUsers FId (-1)) [user7; user3]
  = rev (sortBy (compareUsers FId 1) [user7; user3]).
Proof.
  apply descending_is_reverse.
  repeat constructor.
Defined.

(** ** Loading *)

Lemma ok_false (status : Z) : ok status = false <-> ~ Is2xx status.
Proof.
  rewrite <- ok_spec. destruct (ok status); split; congruence.
Qed.

(** X11.  Loading sends one GET.  On a 2xx reply carrying a list, the
    collection becomes the normalized records of the list, one per raw record,
    in the order and with the identifiers of the server, and the page shows
    the new state; on a rejected fetch, a status outside 2xx or a body that is
    no list, the state and the page stay as they were and the banner shows a
    load error. *)
Theorem load_outcome (remote : Remote) (a : App) :
  let a' := loadUsers remote a in
  sent a' = loadRequest :: sent a /\
  match remote loadRequest with
  | Response status (JsonArray data) =>
      if ok status then
        users (state a') = map makeUserFromAPI data /\
        length (users (state a')) = length data /\
        map User.id (users (state a')) = map Raw.id data /\
        view a' = renderTable (state a') /\
        errorBanner a' = errorBanner a
      else
        state a' = state a /\ view a' = view a /\
        errorBanner a' = Some (LoadError LoadNotOk)
  | _ =>
      state a' = state a /\ view a' = view a /\
      exists cause, errorBanner a' = Some (LoadError cause)
  end.
Proof.
  cbv zeta. unfold loadUsers, send.
  destruct (remote loadRequest) as [|status body].
  - cbn. repeat split; eauto.
  - destruct body as [|i|data]; destruct (ok status) eqn:Hok; cbn;
      repeat split; eauto using length_map, load_ids.
Qed.

(** ** Submissions that fail *)

(** X12.  A valid submission whose request is refused (a rejected fetch or
    a status outside 2xx) sends that one request and changes nothing else but
    the form error: the state and the page stay, the edit window stays open on
    the same record, and the form shows an API error. *)
Theorem refused_submission (remote : Remote) (f : Form) (a : App) :
  ValidDraft f ->
  Refused (remote (submitRequest f a)) ->
  let a' := submitForm remote f a in
  sent a' = submitRequest f a :: sent a /\
  state a' = state a /\ view a' = view a /\
  editingId a' = editingId a /\ editModalOpen a' = editModalOpen a /\
  exists cause, formError a' = Some (ApiError cause).
Proof.
  intros Hv Hr. apply checks_pass_iff in Hv. destruct Hv as [C1 C2].
  cbv zeta. rewrite submitForm_unfold; cbv zeta; unfold submitRequest in *.
  fold (draftFirst f) (draftLast f) (draftEmail f) (draftDept f).
  rewrite C1, C2. cbn [hideFormError editingId].
  destruct (editingTarget (editingId a)) as [eid|]; unfold send;
    destruct (remote _) as [|status body]; cbn in Hr |- *;
    try (repeat split; eauto; fail);
    apply ok_false in Hr; rewrite Hr; cbn; repeat split; eauto.
Qed.

Lemma refused_submission_witness :
  let remote := answering (Response 500 NotJson) in
  let a := appWith [user3; user7] (Some 3) in
  state (submitForm remote sampleForm a) = state a /\
  exists cause, formError (submitForm remote sampleForm a)
                = Some (ApiError cause).
Proof.
  cbv zeta.
  assert (Hv : ValidDraft sampleForm).
  { split; [discriminate|]. apply validateEmail_spec. reflexivity. }
  destruct (refused_submission (answering (Response 500 NotJson)) sampleForm
              (appWith [user3; user7] (Some 3)) Hv
              ltac:(cbn; unfold Is2xx; lia))
    as (_ & Hs & _ & _ & _ & Hf).
  split; [exact Hs | exact Hf].
Defined.

(** ** What every handler keeps *)

Ltac handler_cases remote :=
  repeat match goal with
         | |- context [remote ?rq] =>
             let Hr := fresh "Hr" in destruct (remote rq) eqn:Hr
         | |- context [if negb (ok ?s) then _ else _] =>
             let Hok := fresh "Hok" in destruct (ok s) eqn:Hok; cbn [negb]
         | |- context [match ?b with NotJson => _ | _ => _ end] =>
             destruct b
         end.

(** X13.  No handler changes the local collection on its own: whenever an
    event leaves the collection different, its handler has sent a request and
    the remote service has answered it with a 2xx status. *)
Theorem collection_changes_on_confirmation
        (remote : Remote) (ev : Event) (a : App) :
  users (state (handle remote ev a)) <> users (state a) ->
  exists rq status body,
    sent (handle remote ev a) = rq :: sent a /\
    remote rq = Response status body /\ Is2xx status.
Proof.
  destruct ev as [|f|id| | |confirmed id|key| | |n|term|flt|];
    cbn [handle]; try (intros H; exfalso; apply H; reflexivity).
  - unfold loadUsers, send. handler_cases remote;
      try (intros H; exfalso; apply H; reflexivity).
    intros _. eexists _, _, _. split; [reflexivity|].
    split; [eassumption | now apply ok_spec].
  - rewrite submitForm_unfold; cbv zeta.
    destruct (_ || _); [intros H; exfalso; apply H; reflexivity|].
    destruct (negb (validateEmail _));
      [intros H; exfalso; apply H; reflexivity|].
    cbn [hideFormError editingId].
    destruct (editingTarget (editingId a)) as [eid|]; unfold send;
      handler_cases remote;
      try (intros H; exfalso; apply H; reflexivity);
      intros _; eexists _, _, _; (split; [reflexivity|]);
      (split; [eassumption | now apply ok_spec]).
  - unfold deleteUser, send. destruct confirmed; cbn [negb];
      [|intros H; exfalso; apply H; reflexivity].
    destruct (remote (deleteRequest id)) as [|status body] eqn:Hr;
      [intros H; exfalso; apply H; reflexivity|].
    rewrite delete_condition.
    destruct (ok status) eqn:Hok; cbn [negb];
      [|intros H; exfalso; apply H; reflexivity].
    intros _. eexists _, _, _. split; [reflexivity|].
    split; [eassumption | now apply ok_spec].
  - unfold clickHeader. cbn [withState state fst applyAllFilters].
    destruct (match sortKey (state a) with Some _ => _ | None => _ end);
      intros H; exfalso; apply H; reflexivity.
Qed.

Lemma collection_changes_on_confirmation_witness :
  exists rq status body,
    sent (handle placeholderRemote (ClickDelete true 7)
                 (appWith [user3; user7] None))
    = rq :: sent (appWith [user3; user7] None) /\
    placeholderRemote rq = Response status body /\ Is2xx status.
Proof.
  apply (collection_changes_on_confirmation placeholderRemote
           (ClickDelete true 7) (appWith [user3; user7] None)).
  vm_compute. discriminate.
Defined.


(** X15.  Once the page shows the state it keeps showing it: every handler
    that changes the state renders it. *)
Theorem page_stays_in_sync (remote : Remote) (ev : Event) (a : App) :
  InSync a -> InSync (handle remote ev a).
Proof.
  unfold InSync. intros H.
  destruct ev as [|f|id| | |confirmed id|key| | |n|term|flt|];
    cbn [handle]; try exact H; try reflexivity.
  - unfold loadUsers, send. handler_cases remote; first [exact H | reflexivity].
  - rewrite submitForm_unfold; cbv zeta.
    destruct (_ || _); [exact H|].
    destruct (negb (validateEmail _)); [exact H|].
    cbn [hideFormError editingId].
    destruct (editingTarget (editingId a)) as [eid|]; unfold send;
      handler_cases remote; first [exact H | reflexivity].
  - unfold deleteUser, send. destruct confirmed; cbn [negb]; [|exact H].
    destruct (remote (deleteRequest id)) as [|status body]; [exact H|].
    destruct (_ && _); [exact H | reflexivity].
Qed.

Lemma page_stays_in_sync_witness :
  let a := withRender (appWith [user3; user7] None)
                      (withUsers initialState [user3; user7]) in
  InSync (handle placeholderRemote (Submit sampleForm) a).
Proof.
  apply (page_stays_in_sync placeholderRemote (Submit sampleForm)).
  reflexivity.
Defined.

Lemma handle_derived (remote : Remote) (ev : Event) (a : App) :
  Derived (state a) -> Derived (state (handle remote ev a)).
Proof.
  intros H.
  destruct ev as [|f|id| | |confirmed id|key| | |n|term|flt|];
    cbn [handle]; try exact H; try apply recompute_derived.
  - destruct (loadUsers_state remote a) as [-> | [us ->]];
      [exact H | apply recompute_derived].
  - destruct (submitForm_state remote f a) as [-> | [us ->]];
      [exact H | apply recompute_derived].
  - destruct (deleteUser_state remote confirmed id a) as [-> | [us ->]];
      [exact H | apply recompute_derived].
Qed.

(** X16.  In every state a session reaches, the filtered list is the one
    the pipeline computes from the current collection, filters, search term
    and sort, the page count is the one computed from it, the page lies
    between 1 and the page count, and the sort direction is 1 or -1. *)
Theorem reachable_state_consistent
        (steps : list (Remote * Event)) (page0 : View) :
  let st := state (run steps (initialApp page0)) in
  Derived st /\ WellFormed st.
Proof.
  cbv zeta. split; [|apply run_wellformed].
  unfold run.
  assert (H0 : Derived (state (initialApp page0))) by (split; reflexivity).
  revert H0. generalize (initialApp page0) as a.
  induction steps as [|[remote ev] steps IH]; intros a Ha; [exact Ha|].
  cbn [fold_left fst snd]. apply IH. now apply handle_derived.
Qed.

(** ** Searching and filtering *)

Lemma Substring_trans (a b c : str) :
  Substring a b -> Substring b c -> Substring a c.
Proof.
  intros [p1 [s1 ->]] [p2 [s2 ->]].
  exists (p2 ++ p1), (s1 ++ s2). now rewrite <- !app_assoc.
Qed.

Lemma includes_narrower (hay s1 s2 : str) :
  includes s2 s1 = true -> includes hay s2 = true -> includes hay s1 = true.
Proof.
  rewrite !includes_spec. intros H1 H2. now apply Substring_trans with s2.
Qed.

Lemma keepUser_narrower (f : Filters.t) (s1 s2 : str) (u : User.t) :
  includes s2 s1 = true ->
  keepUser f s2 u = true -> keepUser f s1 u = true.
Proof.
  intros Hs. unfold keepUser.
  destruct (truthyStr (Filters.first f) && _); [auto|].
  destruct (truthyStr (Filters.last f) && _); [auto|].
  destruct (truthyStr (Filters.email f) && _); [auto|].
  destruct (truthyStr (Filters.department f) && _); [auto|].
  destruct (truthyStr s1) eqn:H1; [|reflexivity].
  assert (H2 : truthyStr s2 = true).
  { destruct s2; [|reflexivity]. apply includes_spec in Hs.
    destruct Hs as [p [q Hs]]. destruct p; [|discriminate].
    destruct s1; discriminate. }
  rewrite H2.
  destruct (includes _ s2) eqn:E2; [|discriminate].
  now rewrite (includes_narrower _ s1 s2 Hs E2).
Qed.

Lemma filter_narrower {A : Type} (p q : A -> bool) (l : list A) :
  (forall x, q x = true -> p x = true) ->
  filter q l = filter q (filter p l).
Proof.
  intros H. induction l as [|x l IH]; [reflexivity|].
  cbn [filter]. destruct (q x) eqn:Hq.
  - rewrite (H x Hq). cbn [filter]. now rewrite Hq, IH.
  - destruct (p x); [cbn [filter]; now rewrite Hq|]; exact IH.
Qed.

(** X17.  A longer search term narrows the result: when the trimmed term
    [t1], lower-cased, occurs in the trimmed term [t2], lower-cased, the
    records kept for [t2] are among those kept for [t1], in the same order. *)
Theorem search_narrows (st : State) (t1 t2 : str) :
  Substring (toLowerCase (trim t1)) (toLowerCase (trim t2)) ->
  (exists keep,
      filterStep (withSearch st t2) =
      filter keep (filterStep (withSearch st t1))) /\
  incl (filterStep (withSearch st t2)) (filterStep (withSearch st t1)).
Proof.
  intros H. apply includes_spec in H.
  assert (E : filterStep (withSearch st t2) =
              filter (keepUser (filters st) (toLowerCase (trim t2)))
                     (filterStep (withSearch st t1))).
  { unfold filterStep. cbn [withSearch users filters search].
    apply filter_narrower. intros u. now apply keepUser_narrower. }
  split; [eexists; exact E|].
  rewrite E. intros u Hu. now apply filter_In in Hu.
Qed.

Lemma search_narrows_witness :
  let st := withUsers initialState [jane; janet; john] in
  incl (filterStep (withSearch st (lit "Janet ")))
       (filterStep (withSearch st (lit " jan"))).
Proof.
  cbv zeta.
  destruct (search_narrows (withUsers initialState [jane; janet; john])
              (lit " jan") (lit "Janet "))
    as [_ H]; [|exact H].
  apply includes_spec. reflexivity.
Defined.

Lemma keepUser_unconstrained (u : User.t) :
  keepUser (Filters.mk [] [] [] []) [] u = true.
Proof. reflexivity. Qed.

(** X18.  Clearing the filters empties the four filters, the search term
    and goes to page 1, after which every record of the collection is listed:
    the filtered list is the collection, sorted when a sort column is set. *)
Theorem clear_filters_lists_all (a : App) :
  let st' := state (clickClearFilters a) in
  filters st' = Filters.mk [] [] [] [] /\
  search st' = [] /\
  page st' = 1 /\
  users st' = users (state a) /\
  filtered st' = sortStep (state a) (users (state a)) /\
  Permutation (users (state a)) (filtered st').
Proof.
  cbv zeta. unfold clickClearFilters.
  cbn [withState state fst applyAllFilters].
  assert (E : filtered
                (recompute
                   (mkState (users (state a)) (filtered (state a)) 1
                            (perPage (state a)) (totalPages (state a))
                            (sortKey (state a)) (sortDir (state a))
                            (Filters.mk [] [] [] []) []))
              = sortStep (state a) (users (state a))).
  { rewrite filtered_recompute. unfold filterStep.
    cbn [users filters search]. rewrite filter_all; [reflexivity|].
    apply Forall_forall. intros u _. apply keepUser_unconstrained. }
  repeat split; try exact E.
  - cbn [recompute page]. destruct (_ <? 1) eqn:H; reflexivity.
  - rewrite E. apply sortStep_perm.
Qed.

Lemma dropSpaces_id (s : str) :
  (forall c t, s = c :: t -> isSpace c = false) -> dropSpaces s = s.
Proof.
  destruct s as [|c t]; [reflexivity|]. intros H.
  cbn [dropSpaces]. now rewrite (H c t eq_refl).
Qed.

Lemma endsClean_rev_head (s : str) (c : ascii) (r : str) :
  endsClean s = true -> rev s = c :: r -> isSpace c = false.
Proof.
  intros He Hr. apply (f_equal (@rev ascii)) in Hr.
  rewrite rev_involutive in Hr. cbn [rev] in Hr. subst s.
  rewrite endsClean_snoc in He. now apply negb_true_iff in He.
Qed.

(** Trimming a trimmed string changes nothing. *)
Lemma trim_idempotent (s : str) : trim (trim s) = trim s.
Proof.
  destruct (trim_clean s) as [He Hh].
  unfold trim at 1. rewrite (dropSpaces_id (trim s) Hh).
  rewrite dropSpaces_id; [apply rev_involutive|].
  intros c t. now apply endsClean_rev_head.
Qed.

(** X19.  Applying the filters stores them trimmed, so that applying again
    the filters the window then shows changes nothing: the state after the
    second application is the state after the first. *)
Theorem reapply_filters_noop (f : Filters.t) (a : App) :
  let a' := clickApplyFilters f a in
  filters (state a') =
    Filters.mk (trim (Filters.first f)) (trim (Filters.last f))
               (trim (Filters.email f)) (trim (Filters.department f)) /\
  page (state a') = 1 /\
  state (clickApplyFilters (filters (state a')) a') = state a'.
Proof.
  cbv zeta. unfold clickApplyFilters.
  cbn [withState state fst applyAllFilters].
  split; [reflexivity|]. split.
  - cbn [recompute page]. destruct (_ <? 1); reflexivity.
  - set (st1 := mkState (users (state a)) (filtered (state a)) 1
                        (perPage (state a)) (totalPages (state a))
                        (sortKey (state a)) (sortDir (state a))
                        (Filters.mk (trim (Filters.first f))
                                    (trim (Filters.last f))
                                    (trim (Filters.email f))
                                    (trim (Filters.department f)))
                        (search (state a))).
    assert (Hp : page (recompute st1) = 1).
    { cbn [recompute page st1]. destruct (_ <? 1); reflexivity. }
    transitivity (recompute (recompute st1)); [|apply recompute_idempotent].
    f_equal. etransitivity; [|apply state_eta].
    f_equal; [now rewrite Hp|].
    cbn [recompute filters Filters.first Filters.last Filters.email
         Filters.department st1].
    now rewrite !trim_idempotent.
Qed.

(** ** Normalized names *)

Lemma Tokens_words (s : str) (ts : list str) : Tokens s ts -> Forall Word ts.
Proof.
  induction 1 as [|ws w rest ts _ Hne Hw _ _ IH]; constructor;
    [now split | exact IH].
Qed.

Lemma Tokens_join (ts : list str) :
  Forall Word ts -> Tokens (join (lit " ") ts) ts.
Proof.
  induction 1 as [|w ts [Hne Hw] Hts IH]; [apply Tokens_blank; constructor|].
  destruct ts as [|w2 ts].
  - cbn [join]. rewrite <- (app_nil_r w) at 1.
    apply Tokens_word_here; auto; apply Tokens_blank; constructor.
  - change (join (lit " ") (w :: w2 :: ts))
      with (w ++ " "%char :: join (lit " ") (w2 :: ts)).
    apply Tokens_word_here; auto.
    now apply Tokens_space_cons.
Qed.

(** First and last name of a normalized record, put together again with a
    space, have the tokens of the name. *)
Lemma recombined_tokens (name : str) :
  tokens (hd [] (tokens name) ++ lit " "
          ++ join (lit " ") (tl (tokens name)))
  = tokens name.
Proof.
  pose proof (Tokens_words _ _ (tokens_Tokens name)) as Hw.
  symmetry. apply Tokens_unique.
  destruct (tokens name) as [|w ts]; cbn [hd tl].
  - apply Tokens_blank. repeat constructor.
  - inversion Hw as [|? ? [Hne Hn] Hts]; subst.
    apply Tokens_word_here; auto.
    change (lit " " ++ join (lit " ") ts)
      with (" "%char :: join (lit " ") ts).
    apply Tokens_space_cons; [reflexivity | now apply Tokens_join].
Qed.

(** X20.  The name an update sends for a normalized record, its first and
    last name joined by a space and trimmed, normalizes back to the same first
    and last name. *)
Theorem name_round_trip (u : Raw.t) :
  let r := makeUserFromAPI u in
  splitName (Some (trim (User.first r ++ lit " " ++ User.last r)))
  = (User.first r, User.last r).
Proof.
  cbv zeta. unfold makeUserFromAPI. rewrite splitName_spec.
  cbn [User.first User.last]. rewrite splitName_spec. cbn [orEmpty].
  rewrite tokens_trim. cbn [User.first User.last].
  now rewrite recombined_tokens.
Qed.

(** X21.  The first name of a normalized record holds no white space, it
    is empty only when the last name is empty too, and first and last name
    together hold the tokens of the raw name, in order. *)
Theorem normalized_name_clean (u : Raw.t) :
  let r := makeUserFromAPI u in
  NoSpaces (User.first r) /\
  (User.first r = [] -> User.last r = []) /\
  tokens (User.first r) ++ tokens (User.last r) = tokens (orEmpty (Raw.name u)).
Proof.
  cbv zeta. unfold makeUserFromAPI. rewrite splitName_spec.
  cbn [User.first User.last].
  pose proof (Tokens_words _ _ (tokens_Tokens (orEmpty (Raw.name u)))) as Hw.
  destruct (tokens (orEmpty (Raw.name u))) as [|w ts]; cbn [hd tl].
  - repeat split; constructor.
  - inversion Hw as [|? ? [Hne Hn] Hts]; subst.
    split; [exact Hn|]. split; [intros E; contradiction|].
    rewrite <- (Tokens_unique _ _ (Tokens_join ts Hts)).
    assert (E : [w] = tokens w).
    { apply Tokens_unique. rewrite <- (app_nil_r w) at 1.
      apply Tokens_word_here; auto; apply Tokens_blank; constructor. }
    now rewrite <- E.
Qed.

(** ** Mutations that change nothing, or undo one another *)

Lemma filter_absent_id (id : Z) (us : list User.t) :
  ~ In id (map User.id us) ->
  filter (fun u => negb (User.id u =? id)) us = us.
Proof.
  intros H. apply filter_all. apply Forall_forall. intros u Hu.
  apply negb_true_iff, Z.eqb_neq. intros E. apply H.
  apply in_map_iff. now exists u.
Qed.

Lemma filter_removes_id (id : Z) (us : list User.t) :
  ~ In id (map User.id (filter (fun u => negb (User.id u =? id)) us)).
Proof.
  intros H. apply in_map_iff in H. destruct H as [u [E Hu]].
  apply filter_In in Hu. destruct Hu as [_ Hu].
  rewrite E, Z.eqb_refl in Hu. discriminate.
Qed.

(** X22.  Deleting an identifier the collection does not hold changes no
    record, whatever the reply; and after a delete the remote service has
    confirmed, the collection holds the identifier no more, so that a second
    delete of it changes no record. *)
Theorem delete_absent_noop (remote : Remote) (confirmed : bool) (id : Z)
        (a : App) :
  (~ In id (ids a) ->
   users (state (deleteUser remote confirmed id a)) = users (state a)) /\
  (forall status body,
      remote (deleteRequest id) = Response status body -> Is2xx status ->
      ~ In id (ids (deleteUser remote true id a))).
Proof.
  split.
  - intros H. destruct confirmed; [|reflexivity].
    rewrite deleteUser_users.
    destruct (remote (deleteRequest id)) as [|status body]; [reflexivity|].
    destruct (ok status); [now apply filter_absent_id | reflexivity].
  - intros status body Hr Hs. unfold ids. rewrite deleteUser_users, Hr.
    apply ok_spec in Hs. rewrite Hs. apply filter_removes_id.
Qed.

Lemma delete_absent_noop_witness :
  users (state (deleteUser placeholderRemote true 99
                           (appWith [user3; user7] None)))
  = [user3; user7].
Proof.
  destruct (delete_absent_noop placeholderRemote true 99
              (appWith [user3; user7] None)) as [H _].
  apply H. simpl. intuition discriminate.
Defined.

(** X23.  A created record that the service then deletes leaves the
    collection as it was before the creation, provided the identifier given to
    the record was not already held. *)
Theorem create_then_delete (remote1 remote2 : Remote) (f : Form) (a : App)
        (s1 s2 : Z) (b1 b2 : Body) :
  editingTarget (editingId a) = None ->
  ValidDraft f ->
  remote1 (createRequest (draftFirst f) (draftLast f) (draftEmail f)
                         (draftDept f)) = Response s1 b1 ->
  Is2xx s1 -> b1 <> NotJson ->
  let n := newIdFor (bodyId b1) (users (state a)) in
  ~ In n (ids a) ->
  remote2 (deleteRequest n) = Response s2 b2 -> Is2xx s2 ->
  users (state (deleteUser remote2 true n (submitForm remote1 f a)))
  = users (state a).
Proof.
  intros He Hv Hr1 Hs1 Hb n Hn Hr2 Hs2.
  destruct (submitForm_create remote1 f a s1 b1 He Hv Hr1 Hs1 Hb) as [Hst _].
  cbv zeta in Hst. apply (f_equal fst) in Hst. cbn [fst] in Hst.
  rewrite deleteUser_users, Hr2. apply ok_spec in Hs2. rewrite Hs2, Hst.
  cbn [applyAllFilters fst recompute users withUsers filter User.id].
  fold n. rewrite Z.eqb_refl. cbn [negb].
  now apply filter_absent_id.
Qed.

Lemma create_then_delete_witness :
  users (state (deleteUser placeholderRemote true 11
                  (submitForm placeholderRemote sampleForm
                              (appWith [user3; user7] None))))
  = [user3; user7].
Proof.
  assert (Hv : ValidDraft sampleForm).
  { split; [discriminate|]. apply validateEmail_spec. reflexivity. }
  apply (create_then_delete placeholderRemote placeholderRemote sampleForm
           (appWith [user3; user7] None) 201 200
           (JsonObject (Some 11)) (JsonObject None)
           eq_refl Hv eq_refl ltac:(unfold Is2xx; lia) ltac:(discriminate)
           ltac:(simpl; intuition discriminate)
           eq_refl ltac:(unfold Is2xx; lia)).
Defined.



Lemma find_by_unique_id (u : User.t) (us : list User.t) :
  NoDup (map User.id us) -> In u us ->
  findUser (User.id u) us = Some u.
Proof.
  unfold findUser. induction us as [|x us IH]; [intros _ []|].
  cbn [map find]. intros Hnd Hin. apply NoDup_cons_iff in Hnd.
  destruct Hnd as [Hx Hnd].
  destruct (Z.eqb_spec (User.id x) (User.id u)) as [E|E].
  - destruct Hin as [-> | Hin]; [reflexivity|].
    exfalso. apply Hx. rewrite E. now apply in_map.
  - destruct Hin as [-> | Hin]; [congruence | now apply IH].
Qed.

(** X25.  Opening the edit window on a record and submitting it unchanged
    leaves the collection as it is when the answer is handled, when the
    service confirms the update, the record would pass as a draft (its fields
    carry no white space at their ends, its first name is not empty and its
    email has the shape of an address), and when the answer is handled the
    record is still held and still the one being edited and the identifiers
    are unique. *)
Theorem edit_unchanged_noop (a0 a : App) (u : User.t)
        (status : Z) (body : Body) :
  In u (users (state a0)) -> NoDup (ids a0) ->
  User.id u <> 0 -> editingId a0 = Some (User.id u) ->
  trim (User.first u) = User.first u -> trim (User.last u) = User.last u ->
  trim (User.email u) = User.email u ->
  trim (User.department u) = User.department u ->
  User.first u <> [] -> EmailShape (User.email u) ->
  In u (users (state a)) -> NoDup (ids a) ->
  editingId a = Some (User.id u) ->
  Is2xx status ->
  let f := prefillForm (User.id u) (users (state a0)) in
  exists rq p,
    snd (submitStart f a0) = Some (rq, p) /\
    rq = submitRequest f a0 /\
    users (state (resume p (Response status body) a)) = users (state a).
Proof.
  intros Hin0 Hnd0 Hid He0 T1 T2 T3 T4 Hf Hm Hin Hnd He Hs f.
  assert (Ef : f = mkForm (User.first u) (User.last u) (User.email u)
                          (User.department u)).
  { unfold f, prefillForm. now rewrite (find_by_unique_id u _ Hnd0 Hin0). }
  assert (Ht : editingTarget (editingId a0) = Some (User.id u)).
  { rewrite He0. cbn. destruct (Z.eqb_spec (User.id u) 0); congruence. }
  assert (D1 : draftFirst f = User.first u) by (now rewrite Ef).
  assert (D2 : draftLast f = User.last u) by (now rewrite Ef).
  assert (D3 : draftEmail f = User.email u) by (now rewrite Ef).
  assert (D4 : draftDept f = User.department u) by (now rewrite Ef).
  assert (Hv : ValidDraft f).
  { unfold ValidDraft. now rewrite D1, D3. }
  unfold submitRequest. rewrite (submitStart_valid f a0 Hv), Ht. cbv zeta.
  eexists _, _. split; [reflexivity|]. split; [reflexivity|].
  rewrite (resume_update_users _ status body a Hs), He. cbn [numberOf].
  rewrite D1, D2, D3, D4.
  replace (User.mk (User.id u) (User.first u) (User.last u) (User.email u)
                   (User.department u)) with u by (now destruct u).
  destruct (in_split _ _ Hin) as [pre [post E]]. rewrite E.
  apply replace_single; [|reflexivity].
  unfold ids in Hnd. now rewrite <- E.
Qed.

(** Record 7 opened and submitted as it is; the answer 200 is handled
    after the page has moved on by a click on a header. *)
Lemma edit_unchanged_noop_witness :
  let a0 := appWith [user3; user7] (Some 7) in
  let a := clickHeader FFirst a0 in
  exists rq p,
    snd (submitStart (prefillForm 7 (users (state a0))) a0) = Some (rq, p) /\
    users (state (resume p (Response 200 (JsonObject (Some 7))) a))
    = users (state a).
Proof.
  assert (Hm : EmailShape (User.email user7)).
  { apply validateEmail_spec. reflexivity. }
  destruct (edit_unchanged_noop (appWith [user3; user7] (Some 7))
              (clickHeader FFirst (appWith [user3; user7] (Some 7)))
              user7 200 (JsonObject (Some 7))
              ltac:(simpl; auto)
              ltac:(repeat constructor; simpl; intuition discriminate)
              ltac:(discriminate) eq_refl eq_refl eq_refl eq_refl eq_refl
              ltac:(discriminate) Hm
              ltac:(simpl; auto)
              ltac:(repeat constructor; simpl; intuition discriminate)
              eq_refl ltac:(unfold Is2xx; lia))
    as (rq & p & Hp & _ & Hus).
  exists rq, p. split; [exact Hp | exact Hus].
Defined.

(** X26.  When the server returns no identifier, or 0, and the local
    identifiers are below 2^53, the identifier given to a created record is at
    least 1 and larger than every identifier of the collection, so it is held
    by no record. *)
Theorem fallback_id_fresh (retId : option Z) (us : list User.t) :
  retId = None \/ retId = Some 0 ->
  maxWithZero (map User.id us) < two53 ->
  let n := newIdFor retId us in
  1 <= n /\
  Forall (fun u => User.id u < n) us /\
  ~ In n (map User.id us).
Proof.
  intros H Hlt. cbv zeta.
  assert (E : newIdFor retId us = maxWithZero (map User.id us) + 1).
  { rewrite <- (plusOne_exact _ Hlt). destruct H as [-> | ->]; reflexivity. }
  destruct (maxWithZero_spec (map User.id us)) as (_ & H0 & Hall).
  split; [lia|]. split.
  - rewrite Forall_map in Hall.
    eapply Forall_impl; [|exact Hall]. cbn. intros; lia.
  - rewrite E, <- (plusOne_exact _ Hlt). now apply next_id_fresh.
Qed.

Lemma fallback_id_fresh_witness :
  newIdFor None [user3; user7] = 8 /\ 1 <= newIdFor None [user3; user7].
Proof.
  split; [reflexivity|].
  destruct (fallback_id_fresh None [user3; user7] (or_introl eq_refl)
              ltac:(vm_compute; reflexivity))
    as [H _].
  exact H.
Defined.

(** With a record that carries the identifier 2^53 the sum gives 2^53
    again: the identifier of the new record is the one already held. *)
Lemma fallback_id_at_two53 :
  let us := [User.mk two53 (lit "Jane") [] (lit "jane@widget.co") []] in
  newIdFor None us = two53 /\ In (newIdFor None us) (map User.id us).
Proof. split; [reflexivity | now left]. Qed.

(** ** Accepted addresses *)

Lemma Plain_no_at (s : str) : Plain s -> count_occ ascii_dec s "@"%char = 0%nat.
Proof.
  intros [_ H]. apply count_occ_not_In. intros Hin.
  rewrite Forall_forall in H. now destruct (H _ Hin).
Qed.

Lemma Plain_no_space (s : str) : Plain s -> NoSpaces s.
Proof.
  intros [_ H]. eapply Forall_impl; [|exact H]. now intros c [Hc _].
Qed.

Lemma Plain_length (s : str) : Plain s -> (1 <= length s)%nat.
Proof. intros [H _]. destruct s; [congruence | cbn; lia]. Qed.

(** X27.  An address [validateEmail] accepts holds exactly one [@], no
    white space and at least five characters, and neither starts with the
    [@] nor ends with it; the empty string is not accepted. *)
Theorem accepted_email_facts (e : str) :
  validateEmail e = true ->
  count_occ ascii_dec e "@"%char = 1%nat /\
  NoSpaces e /\
  (5 <= length e)%nat /\
  hd "@"%char e <> "@"%char /\
  last e "@"%char <> "@"%char.
Proof.
  intros H. apply validateEmail_spec in H.
  destruct H as (loc & dom & tld & -> & Hl & Hd & Ht).
  pose proof (Plain_no_at _ Hl). pose proof (Plain_no_at _ Hd).
  pose proof (Plain_no_at _ Ht).
  pose proof (Plain_length _ Hl). pose proof (Plain_length _ Hd).
  pose proof (Plain_length _ Ht).
  split; [|split; [|split; [|split]]].
  - rewrite count_occ_app. cbn [count_occ].
    destruct (ascii_dec "@" "@") as [_|N]; [|congruence].
    rewrite count_occ_app. cbn [count_occ].
    destruct (ascii_dec "." "@") as [N|_]; [discriminate|]. lia.
  - apply Forall_app. split; [now apply Plain_no_space|].
    constructor; [reflexivity|]. apply Forall_app.
    split; [now apply Plain_no_space|].
    constructor; [reflexivity | now apply Plain_no_space].
  - rewrite length_app. cbn [length]. rewrite length_app. cbn [length]. lia.
  - destruct Hl as [Hne Hall]. destruct loc as [|c loc]; [congruence|].
    cbn [app hd]. inversion Hall; subst. tauto.
  - destruct Ht as [Hne Hall].
    destruct (exists_last Hne) as [t [c ->]].
    replace (loc ++ "@"%char :: dom ++ "."%char :: t ++ [c])
      with ((loc ++ "@"%char :: dom ++ "."%char :: t) ++ [c])
      by (rewrite <- !app_assoc; cbn; now rewrite <- app_assoc).
    rewrite last_last.
    apply Forall_app in Hall. destruct Hall as [_ Hc].
    inversion Hc; subst. tauto.
Qed.

Lemma accepted_email_facts_witness :
  count_occ ascii_dec (lit "jane@widget.co") "@"%char = 1%nat.
Proof.
  destruct (accepted_email_facts (lit "jane@widget.co") eq_refl) as [H _].
  exact H.
Defined.

(** ** Page size *)

(** X28.  A change of the page size goes to page 1 and keeps the filtered
    records; when the new size is at least 1 and no smaller than their number,
    there is one page and it shows them all. *)
Theorem page_size_that_fits (n : Z) (a : App) :
  let st' := state (changePerPage n a) in
  perPage st' = n /\
  Permutation (filterStep (state a)) (filtered st') /\
  (1 <= n -> Z.of_nat (length (filterStep (state a))) <= n ->
   page st' = 1 /\ totalPages st' = 1 /\ pageItemsOf st' = filtered st').
Proof.
  cbv zeta. unfold changePerPage.
  cbn [withState state fst applyAllFilters].
  set (st1 := mkState _ _ 1 n _ _ _ _ _).
  assert (Hf : filtered (recompute st1) = sortStep (state a) (filterStep (state a)))
    by reflexivity.
  split; [reflexivity|]. split; [rewrite Hf; apply sortStep_perm|].
  intros Hn Hfit.
  assert (Hlen : Z.of_nat (length (filtered (recompute st1))) <= n).
  { now rewrite Hf, sortStep_length. }
  assert (Ht : totalPages (recompute st1) = 1).
  { cbn [recompute totalPages perPage st1].
    change (sortStep st1 (filterStep st1)) with (filtered (recompute st1)).
    pose proof (ceilDiv_ceiling (Z.of_nat (length (filtered (recompute st1))))
                                n Hn) as [Hc1 Hc2].
    nia. }
  assert (Hp : page (recompute st1) = 1).
  { cbn [recompute page st1]. destruct (_ <? 1); reflexivity. }
  split; [exact Hp|]. split; [exact Ht|].
  unfold pageItemsOf. rewrite Hp.
  change (perPage (recompute st1)) with n.
  replace ((1 - 1) * n) with (Z.of_nat 0) by lia.
  replace (Z.of_nat 0 + n) with (Z.of_nat (Z.to_nat n)) by lia.
  rewrite slice_nat by lia. cbn [skipn]. apply firstn_all2. lia.
Qed.

Lemma page_size_that_fits_witness :
  let st' := state (changePerPage 20 (appWith twelveUsers None)) in
  totalPages st' = 1 /\ pageItemsOf st' = filtered st'.
Proof.
  cbv zeta.
  destruct (page_size_that_fits 20 (appWith twelveUsers None)) as (_ & _ & H).
  destruct (H ltac:(lia) ltac:(vm_compute; discriminate)) as (_ & Ht & Hi).
  split; [exact Ht | exact Hi].
Defined.

(** ** The two ends of a submission *)

